(** * mandelbrot-cpp: the fractal engine of [src/main.cpp]

    A shallow embedding of [struct Color], [struct Image] and
    [struct Mandlebrot] and of their member functions, followed by the
    properties of the rendering engine.

    - [double] is IEEE binary64, modelled by Rocq's primitive [float];
      the conversions between [double] and the integer types are written out.
    - [int] is a 32 bit signed integer carried as a [Z]; signed overflow and
      the other undefined operations of C++ are the outcome [Undefined].
    - [log2], [exp] and [cos] come from the C library, which is not part of
      the repository: they are parameters of the engine ([Section Engine]).
    - the raster [Color **data] is a finite map from [(y, x)] to colours;
      a pixel that was never written has no entry. *)

From Stdlib Require Import ZArith Floats Bool List Lia.
From stdpp Require Import gmap list.

Set Warnings "-inexact-float".
Open Scope Z_scope.

(** ** Outcomes of a C++ computation *)

(** The only exception the program can raise on its own. *)
Inductive exn : Type :=
| bad_array_new_length.

Inductive outcome (A : Type) : Type :=
| Ok (a : A)
| Undefined
| Raised (e : exn).
Arguments Ok {A} a.
Arguments Undefined {A}.
Arguments Raised {A} e.

#[global] Instance outcome_ret : MRet outcome := @Ok.
#[global] Instance outcome_bind : MBind outcome := fun A B f c =>
  match c with
  | Ok a => f a
  | Undefined => Undefined
  | Raised e => Raised e
  end.

(** A counted loop [for (i in l) body]: the body is run on every element in
    order, threading the state, and stops at the first abnormal outcome. *)
Fixpoint forM {S I : Type} (body : S -> I -> outcome S) (l : list I) (s : S)
  : outcome S :=
  match l with
  | [] => Ok s
  | i :: l' => s' ← body s i; forM body l' s'
  end.

(** ** Machine integers *)

Definition INT_MIN : Z := - 2 ^ 31.
Definition INT_MAX : Z := 2 ^ 31 - 1.
Definition UINT_MAX : Z := 2 ^ 32 - 1.
Definition UCHAR_MAX : Z := 255.
Definition SIZE_MAX : Z := 2 ^ 64 - 1.

Definition in_int (z : Z) : bool := (INT_MIN <=? z) && (z <=? INT_MAX).

(** The result of an [int] operation whose mathematical value is [z]. *)
Definition int (z : Z) : outcome Z :=
  if in_int z then Ok z else Undefined.

(** [unsigned] and [size_t] arithmetic wraps around. *)
Definition unsigned (z : Z) : Z := z mod (UINT_MAX + 1).
Definition size_t (z : Z) : Z := z mod (SIZE_MAX + 1).

(** ** Conversions between [double] and the integer types *)

(** Integer to [double]: round to nearest, exact below [2 ^ 53]. *)
Definition double_of_Z (z : Z) : float :=
  SF2Prim (binary_normalize prec emax z 0 false).

(** The integral part of a [double] (discarding the fraction, that is
    rounding toward zero); infinities and NaN have none. *)
Definition truncZ (d : float) : option Z :=
  match Prim2SF d with
  | S754_zero _ => Some 0
  | S754_finite s m e =>
      let a := Z.shiftl (Z.pos m) e in Some (if s then - a else a)
  | S754_infinity _ | S754_nan => None
  end.

(** The largest integer below a [double], for comparison with [truncZ]. *)
Definition floorZ (d : float) : option Z :=
  match Prim2SF d with
  | S754_zero _ => Some 0
  | S754_finite s m e => Some (Z.shiftl (if s then Z.neg m else Z.pos m) e)
  | S754_infinity _ | S754_nan => None
  end.

(** A floating to integral conversion is undefined unless the truncated
    value fits the destination type. *)
Definition convert (lo hi : Z) (d : float) : outcome Z :=
  match truncZ d with
  | Some z => if (lo <=? z) && (z <=? hi) then Ok z else Undefined
  | None => Undefined
  end.

Definition int_of_double : float -> outcome Z := convert INT_MIN INT_MAX.
Definition unsigned_of_double : float -> outcome Z := convert 0 UINT_MAX.
Definition uchar_of_double : float -> outcome Z := convert 0 UCHAR_MAX.

(** [M_PI] of <cmath>. *)
Definition M_PI : float := 0x1.921fb54442d18p+1%float.

(** ** [struct Color] *)

Record Color : Type := mkColor { red : Z; green : Z; blue : Z }.

#[global] Instance Color_eq_dec : EqDecision Color.
Proof. solve_decision. Defined.

(** ** [struct Image] *)

(** [data] maps [(y, x)] to the colour stored in [data[y][x]]. *)
Record Image : Type := mkImage {
  data : gmap (Z * Z) Color;
  width : Z;
  height : Z
}.

(** [Image::Image]: [new Color* [height]], then one [new Color [width * 3]]
    per row.  An array new with a negative length raises
    [std::bad_array_new_length]; with [height = 0] no row is allocated and
    [width] is not looked at.  The pixels start out indeterminate.  Memory is
    taken to suffice. *)
Definition Image_new (w h : Z) : outcome Image :=
  if h <? 0 then Raised bad_array_new_length
  else if h =? 0 then Ok (mkImage ∅ w h)
  else
    n ← int (w * 3);
    if n <? 0 then Raised bad_array_new_length
    else Ok (mkImage ∅ w h).

(** The extent of the allocation: row [y] exists for [0 <= y < height] and
    holds [width * 3] colours. *)
Definition allocated (img : Image) (x y : Z) : bool :=
  (0 <=? y) && (y <? height img) && (0 <=? x) && (x <? width img * 3).

(** [Image::write] describes the image to libpng as [width] by [height]
    pixels of three 8 bit channels and hands it [data], cast to rows of bytes.
    [Color] is packed, so that the bytes of row [y] are the channels of
    [data[y][0]], [data[y][1]], ... in turn; a row of such a PNG has
    [3 * width] bytes, which are the first [width] colours of the [width * 3]
    that the row holds.  [rowBytes] is these bytes, and [None] when one of
    the colours was never written: its bytes are indeterminate. *)
Definition colorBytes (c : Color) : list Z := [red c; green c; blue c].

Definition rowBytes (img : Image) (y : Z) : option (list Z) :=
  cs ← mapM (fun x => data img !! (y, x)) (seqZ 0 (width img));
  Some (cs ≫= colorBytes).

(** The rows that [Image::write] passes to [png_write_image]. *)
Definition Image_write_rows (img : Image) : option (list (list Z)) :=
  mapM (rowBytes img) (seqZ 0 (height img)).

(** ** [std::complex<double>] *)

Record complex : Type := mkComplex { re : float; im : float }.

Definition cadd (z w : complex) : complex :=
  mkComplex (re z + re w) (im z + im w).

(** The product.  The library recomputes it when both parts come out as NaN;
    the engine multiplies finite numbers only, a [z] with
    [norm (z) < stopNorm] and [1e5]. *)
Definition cmul (z w : complex) : complex :=
  mkComplex (re z * re w - im z * im w) (re z * im w + im z * re w).

(** [std::norm]: the squared magnitude. *)
Definition norm (z : complex) : float := re z * re z + im z * im z.

(** [Mandlebrot::step] *)
Definition step (z c : complex) : complex := cadd (cmul z z) c.

(** [k] applications of [z = step (z, c)], and the orbit of [c], which
    starts at [c] itself. *)
Fixpoint steps (c z : complex) (k : nat) : complex :=
  match k with
  | O => z
  | S k' => steps c (step z c) k'
  end.

Definition orbit (c : complex) (k : nat) : complex := steps c c k.

(** ** [struct Mandlebrot] *)

Record Mandlebrot : Type := mkMandlebrot {
  image : Image;
  colorList : list Color;
  bodyColor : Color;
  left : float;
  right : float;
  top : float;
  bottom : float;
  maxIterations : Z;
  stopNorm : float;
  mSmooth : float;
  bSmooth : float
}.

(** The engine with other contents in its raster, and the assignment
    [image.data[y][x] = c]. *)
Definition setData (m : Mandlebrot) (d : gmap (Z * Z) Color) : Mandlebrot :=
  mkMandlebrot
    (mkImage d (width (image m)) (height (image m)))
    (colorList m) (bodyColor m) (left m) (right m) (top m) (bottom m)
    (maxIterations m) (stopNorm m) (mSmooth m) (bSmooth m).

Definition store (m : Mandlebrot) (x y : Z) (c : Color) : Mandlebrot :=
  setData m (<[(y, x) := c]> (data (image m))).

(** [colorList.push_back] and the assignments to the public members that a
    caller performs between construction and rendering. *)
Definition push_back (m : Mandlebrot) (c : Color) : Mandlebrot :=
  mkMandlebrot (image m) (colorList m ++ [c]) (bodyColor m)
    (left m) (right m) (top m) (bottom m)
    (maxIterations m) (stopNorm m) (mSmooth m) (bSmooth m).

Definition set_maxIterations (m : Mandlebrot) (n : Z) : Mandlebrot :=
  mkMandlebrot (image m) (colorList m) (bodyColor m)
    (left m) (right m) (top m) (bottom m)
    n (stopNorm m) (mSmooth m) (bSmooth m).

(** The pixels [computeArea] visits, as [(x, y)], in the order of its two
    loops. *)
Definition areaPixels (leftArea topArea rightArea bottomArea : Z) : list (Z * Z) :=
  y ← seqZ topArea (bottomArea - topArea);
  x ← seqZ leftArea (rightArea - leftArea);
  [(x, y)].

(** The two column arguments that [computeMultiCore] passes to [computeArea]
    for a block, [(currentBlock+0) * image.width / 100] and
    [(currentBlock+1) * image.width / 100], in [int] arithmetic. *)
Definition blockLeft (w currentBlock : Z) : outcome Z :=
  b ← int (currentBlock + 0);
  n ← int (b * w);
  Ok (Z.quot n 100).

Definition blockRight (w currentBlock : Z) : outcome Z :=
  b ← int (currentBlock + 1);
  n ← int (b * w);
  Ok (Z.quot n 100).

(** What a thread of [computeMultiCore] does next: take a block number from
    [nextBlock], call [computePixel] for the pixels that remain in its
    block, or nothing more. *)
Inductive worker : Type :=
| Claiming
| Computing (todo : list (Z * Z))
| Finished.

(** The state shared by the threads.  [trace] is a history variable: the
    calls of [computePixel] made so far, in the order they were made. *)
Record pool : Type := mkPool {
  engine : Mandlebrot;
  nextBlock : Z;
  doneBlock : Z;
  workers : list worker;
  trace : list (Z * Z)
}.

Definition setWorker (p : pool) (i : nat) (w : worker) : pool :=
  mkPool (engine p) (nextBlock p) (doneBlock p) (<[i := w]> (workers p)) (trace p).

Definition isFinished (w : worker) : bool :=
  match w with Finished => true | _ => false end.

Definition joined (p : pool) : bool := forallb isFinished (workers p).

(** The state after [std::vector<std::thread> threads (nThreads)] and the
    two counters are set up: no thread has run yet. *)
Definition spawn (nThreads : nat) (m : Mandlebrot) : pool :=
  mkPool m 0 0 (replicate nThreads Claiming) [].

Section Engine.

(** The functions of <cmath> the engine calls. *)
Variables log2 exp cos : float -> float.

(** [Mandlebrot::Mandlebrot].  The member [image] is initialised first, from
    the two products converted to [int]; the body then computes the two
    smoothing coefficients. *)
Definition Mandlebrot_new (resolution left top right bottom : float)
  : outcome Mandlebrot :=
  w ← int_of_double (resolution * (right - left));
  h ← int_of_double (resolution * (top - bottom));
  img ← Image_new w h;
  let stopNorm := 400%float in
  let mSmooth :=
    (1 / log2 (0.5 * log2 (norm (step (mkComplex 1e5 0) (mkComplex 0 0)))
               / log2 1e5))%float in
  let bSmooth := (log2 (0.5 * log2 stopNorm) * mSmooth)%float in
  Ok (mkMandlebrot img [] (mkColor 0 0 0) left right top bottom
        100 stopNorm mSmooth bSmooth).

Section Render.

Variable m : Mandlebrot.

(** The point of the complex plane under pixel [(x, y)]. *)
Definition pixelPoint (x y : Z) : complex :=
  mkComplex
    (left m + (right m - left m) * double_of_Z x / double_of_Z (width (image m)))
    (top m + (bottom m - top m) * double_of_Z y / double_of_Z (height (image m))).

(** The loop
    [while (std::norm(z) < stopNorm && iN++ < maxIterations) z = step (z,c);]
    run for at most [fuel] evaluations of its condition.  [iN++] yields the
    old value and increments, also when the comparison then fails.  [None]
    means that the fuel ran out. *)
Fixpoint escapeLoop (fuel : nat) (c z : complex) (iN : Z)
  : option (outcome (complex * Z)) :=
  match fuel with
  | O => None
  | S fuel' =>
      if (norm z <? stopNorm m)%float then
        match int (iN + 1) with
        | Ok iN' =>
            if iN <? maxIterations m then escapeLoop fuel' c (step z c) iN'
            else Some (Ok (z, iN'))
        | _ => Some Undefined
        end
      else Some (Ok (z, iN))
  end.

(** The condition is evaluated at most [maxIterations + 1] times. *)
Definition escapeFuel : nat := S (Z.to_nat (maxIterations m)).

Definition escape (c : complex) : outcome (complex * Z) :=
  match escapeLoop escapeFuel c c 0 with
  | Some r => r
  | None => Undefined
  end.

(** [colorList[i]]: [operator[]] does not check its index, and an index
    outside the vector is undefined behaviour. *)
Definition at_ (l : list Color) (i : Z) : outcome Color :=
  if i <? 0 then Undefined
  else match l !! Z.to_nat i with
       | Some c => Ok c
       | None => Undefined
       end.

(** The cosine weight of the first of the two stops. *)
Definition mixOf (fC : float) : float := (0.5 * (1 + cos (M_PI * fC)))%float.

(** One channel of the blend, before and after the cast to [unsigned char]. *)
Definition blend (c1 c2 : Z) (mix : float) : float :=
  (double_of_Z c1 * mix + double_of_Z c2 * (1 - mix))%float.

Definition blendColor (color1 color2 : Color) (mix : float) : outcome Color :=
  r ← uchar_of_double (blend (red color1) (red color2) mix);
  g ← uchar_of_double (blend (green color1) (green color2) mix);
  b ← uchar_of_double (blend (blue color1) (blue color2) mix);
  Ok (mkColor r g b).

(** The smoothed number of iterations and its image in gradient space. *)
Definition smoothed (z : complex) (iN : Z) : float :=
  (double_of_Z iN + bSmooth m - mSmooth m * log2 (0.5 * log2 (norm z)))%float.

Definition gradientPosition (fN : float) : float :=
  ((1 - exp (-0.05 * fN))
   * double_of_Z (size_t (Z.of_nat (length (colorList m)) - 1)))%float.

(** The [else] branch of [computePixel]. *)
Definition gradientColor (z : complex) (iN : Z) : outcome Color :=
  let fN := smoothed z iN in
  let nC := gradientPosition fN in
  iC ← unsigned_of_double nC;
  let fC := (nC - double_of_Z iC)%float in
  color1 ← at_ (colorList m) iC;
  color2 ← at_ (colorList m) (unsigned (iC + 1));
  blendColor color1 color2 (mixOf fC).

(** The colour [computePixel] assigns to [image.data[y][x]]. *)
Definition pixelColor (x y : Z) : outcome Color :=
  '(z, iN) ← escape (pixelPoint x y);
  if maxIterations m <=? iN then Ok (bodyColor m)
  else gradientColor z iN.

End Render.

(** [Mandlebrot::computePixel] *)
Definition computePixel (m : Mandlebrot) (x y : Z) : outcome Mandlebrot :=
  '(z, iN) ← escape m (pixelPoint m x y);
  if allocated (image m) x y then
    color ← (if maxIterations m <=? iN then Ok (bodyColor m)
             else gradientColor m z iN);
    Ok (store m x y color)
  else Undefined.

(** [Mandlebrot::computeArea] *)
Definition computeArea (m : Mandlebrot) (leftArea topArea rightArea bottomArea : Z)
  : outcome Mandlebrot :=
  forM (fun m y =>
          forM (fun m x => computePixel m x y)
               (seqZ leftArea (rightArea - leftArea)) m)
       (seqZ topArea (bottomArea - topArea)) m.

(** [Mandlebrot::computeSingleCore] *)
Definition computeSingleCore (m : Mandlebrot) : outcome Mandlebrot :=
  computeArea m 0 0 (width (image m)) (height (image m)).

(** *** [Mandlebrot::computeMultiCore]

    Every thread runs the same lambda.  A thread is modelled by what it does
    next; the threads share the engine and the two atomic counters, and the
    steps of the threads are interleaved in any order.  The steps are: the
    increment [nextBlock++] with the test [currentBlock < 100] and the
    evaluation of the arguments of [computeArea]; one call of
    [computePixel], which reads the parameters of the engine and writes one
    pixel; and the increment [++doneBlock] that ends a block.  The counter
    [nextBlock] stays below [100 + nThreads] and is not wrapped. *)

Definition workerStep (p : pool) (i : nat) : outcome pool :=
  match workers p !! i with
  | None | Some Finished => Ok p
  | Some Claiming =>
      let currentBlock := nextBlock p in
      let p' := mkPool (engine p) (nextBlock p + 1) (doneBlock p) (workers p) (trace p) in
      if currentBlock <? 100 then
        l ← blockLeft (width (image (engine p))) currentBlock;
        r ← blockRight (width (image (engine p))) currentBlock;
        Ok (setWorker p' i
              (Computing (areaPixels l 0 r (height (image (engine p))))))
      else Ok (setWorker p' i Finished)
  | Some (Computing []) =>
      Ok (setWorker
            (mkPool (engine p) (nextBlock p) (doneBlock p + 1) (workers p) (trace p))
            i Claiming)
  | Some (Computing ((x, y) :: todo)) =>
      e ← computePixel (engine p) x y;
      Ok (setWorker
            (mkPool e (nextBlock p) (doneBlock p) (workers p) (trace p ++ [(x, y)]))
            i (Computing todo))
  end.

(** The threads take their steps in the order of a schedule, a list of
    thread numbers. *)
Definition run (sched : list nat) (p : pool) : outcome pool :=
  forM workerStep sched p.

(** The render with [nThreads] threads under a schedule.  The function
    returns once every thread has been joined; [None] means that the schedule
    ends before that. *)
Definition computeMultiCore (nThreads : nat) (sched : list nat) (m : Mandlebrot)
  : option (outcome Mandlebrot) :=
  match run sched (spawn nThreads m) with
  | Ok p => if joined p then Some (Ok (engine p)) else None
  | Undefined => Some Undefined
  | Raised e => Some (Raised e)
  end.

End Engine.

(** ** Test engines *)

(** The five stops that [main] adds. *)
Definition mainGradient : list Color :=
  [mkColor 0 0 40; mkColor 0 50 100; mkColor 0 200 0;
   mkColor 255 255 100; mkColor 255 255 255].

(** The engine [Mandlebrot (1, 0, 0, 1, -1)] with the stops of [main]: one
    pixel, which lies over the origin of the plane.  The two smoothing
    coefficients are read in the gradient branch only, which the pixels of
    the test engines do not reach; they stand for the values that the
    constructor computes. *)
Definition originEngine : Mandlebrot :=
  mkMandlebrot (mkImage ∅ 1 1) mainGradient (mkColor 0 0 0) 0 1 0 (-1) 100 400 1 2.

(** The engine [Mandlebrot (1, 5, 0, 6, -1)] with the stops of [main], after
    [maxIterations = 1]: its one pixel lies over [5], inside the threshold,
    and one step takes it to [30], outside. *)
Definition lateEngine : Mandlebrot :=
  mkMandlebrot (mkImage ∅ 1 1) mainGradient (mkColor 0 0 0) 5 6 0 (-1) 1 400 1 2.

(** The engine [Mandlebrot (1, 25, 0, 26, -1)] as the constructor leaves it,
    without stops: its one pixel lies over [25], outside the threshold. *)
Definition farEngine : Mandlebrot :=
  mkMandlebrot (mkImage ∅ 1 1) [] (mkColor 0 0 0) 25 26 0 (-1) 100 400 1 2.

(** The engine [Mandlebrot (21474837, 0, 0, 1, 0)] with the stops of [main]:
    one column more than [MAX_BLOCK_WIDTH], and no row. *)
Definition wideEngine : Mandlebrot :=
  mkMandlebrot (mkImage ∅ 21474837 0) mainGradient (mkColor 0 0 0) 0 1 0 0 100 400 1 2.

(** ** The reference escape-time iteration *)

(** The iteration as the specification words it: start from [z = c], and
    repeat [z <- z * z + c], counting, until [|z|^2 >= stopNorm] or the
    count has reached [maxIterations].  [budget] is the number of iterations
    still allowed. *)
Fixpoint referenceLoop (stop : float) (budget : nat) (c z : complex) (count : Z)
  : complex * Z :=
  match budget with
  | O => (z, count)
  | S budget' =>
      if (stop <=? norm z)%float then (z, count)
      else referenceLoop stop budget' c (cadd (cmul z z) c) (count + 1)
  end.

Definition referenceIteration (m : Mandlebrot) (x y : Z) : complex * Z :=
  let c :=
    mkComplex
      (left m + (right m - left m) * double_of_Z x / double_of_Z (width (image m)))
      (top m + (bottom m - top m) * double_of_Z y / double_of_Z (height (image m))) in
  referenceLoop (stopNorm m) (Z.to_nat (maxIterations m)) c c 0.

(** ** Notions used by the properties *)

(** The first conjunct of the loop condition of [computePixel]. *)
Definition below (m : Mandlebrot) (z : complex) : bool :=
  (norm z <? stopNorm m)%float.

(** The widest raster for which [(currentBlock + 1) * image.width] stays an
    [int] for every block. *)
Definition MAX_BLOCK_WIDTH : Z := INT_MAX / 100.

(** The pixels that the threads still have to compute in the blocks they
    hold, and the number of steps a thread needs to be done with its block. *)
Definition todoOf (w : worker) : list (Z * Z) :=
  match w with Computing todo => todo | _ => [] end.

Definition pending (ws : list worker) : list (Z * Z) := w ← ws; todoOf w.

Definition workerCost (w : worker) : nat :=
  match w with
  | Claiming => 1
  | Computing todo => S (S (length todo))
  | Finished => 0
  end.

Definition poolCost (ws : list worker) : nat := sum_list_with workerCost ws.

(** The threads that hold a block and the threads that have left their
    loop, counted; and what ties the two counters of [computeMultiCore] to
    them: the blocks taken are the blocks done and the blocks held, and each
    block number from 100 on has sent one thread out of its loop. *)
Definition holdsBlock (w : worker) : nat :=
  match w with Computing _ => 1 | _ => 0 end.

Definition hasLeft (w : worker) : nat :=
  match w with Finished => 1 | _ => 0 end.

Definition countersInv (p : pool) : Prop :=
  0 <= doneBlock p /\
  doneBlock p + Z.of_nat (sum_list_with holdsBlock (workers p))
  = Z.min (nextBlock p) 100 /\
  Z.of_nat (sum_list_with hasLeft (workers p)) = Z.max 0 (nextBlock p - 100).

(** The values of a [Color], whose members are [unsigned char]. *)
Definition isByteColor (c : Color) : Prop :=
  0 <= red c <= UCHAR_MAX /\ 0 <= green c <= UCHAR_MAX /\ 0 <= blue c <= UCHAR_MAX.

(** Checks on bytes for the blend at the weights 1 and 0. *)
Definition isPositiveZero (d : float) : bool :=
  match Prim2SF d with S754_zero false => true | _ => false end.

(** A byte whose share of the blend is the whole, and one whose share is
    nothing. *)
Definition byteKept (c : Z) : bool :=
  match uchar_of_double (double_of_Z c * 1 + 0),
        uchar_of_double (0 + double_of_Z c * (1 - 0)) with
  | Ok r1, Ok r0 => (r1 =? c) && (r0 =? c)
  | _, _ => false
  end.

Definition byteDropped (c : Z) : bool :=
  isPositiveZero (double_of_Z c * (1 - 1)) && isPositiveZero (double_of_Z c * 0).

Section RenderState.

Variables log2 exp cos : float -> float.

(** The engine at the start of the render. *)
Variable m0 : Mandlebrot.

Definition inRaster (x y : Z) : Prop :=
  (0 <= x < width (image m0)) /\ (0 <= y < height (image m0)).

(** The raster [d] holds the colour of every pixel of [l] and is the raster
    of [m0] elsewhere. *)
Definition rendered (l : list (Z * Z)) (d : gmap (Z * Z) Color) : Prop :=
  forall x y,
    ((x, y) ∈ l ->
       exists c, pixelColor log2 exp cos m0 x y = Ok c /\ d !! (y, x) = Some c) /\
    ((x, y) ∉ l -> d !! (y, x) = data (image m0) !! (y, x)).

(** The pixels of the raster, in the order of [computeSingleCore]. *)
Definition rasterPixels : list (Z * Z) :=
  areaPixels 0 0 (width (image m0)) (height (image m0)).

(** The pixels of block [b], and of the blocks taken so far when the counter
    [nextBlock] is [n]. *)
Definition blockArea (b : Z) : list (Z * Z) :=
  areaPixels (b * width (image m0) / 100) 0
             ((b + 1) * width (image m0) / 100) (height (image m0)).

Definition claimedPixels (n : Z) : list (Z * Z) :=
  b ← seqZ 0 (Z.min n 100); blockArea b.

Record poolInv (p : pool) : Prop := mkPoolInv {
  inv_engine : exists d, engine p = setData m0 d;
  inv_next : 0 <= nextBlock p;
  inv_finished : forall i, workers p !! i = Some Finished -> 100 <= nextBlock p;
  inv_pixels : trace p ++ pending (workers p) ≡ₚ claimedPixels (nextBlock p);
  inv_data : rendered (trace p) (data (image (engine p)))
}.

(** The steps that remain: two more than its pixels for each block not yet
    taken, and what each thread needs to be done with its block. *)
Definition blocksCost (n : Z) : nat :=
  sum_list_with (fun b => S (S (length (blockArea b)))) (seqZ n (100 - n)).

Definition poolMeasure (p : pool) : nat :=
  (blocksCost (nextBlock p) + poolCost (workers p))%nat.

End RenderState.

(** * Properties *)

(** ** Outcomes *)

Lemma bind_Ok {A B} (c : outcome A) (f : A -> outcome B) (b : B) :
  c ≫= f = Ok b -> exists a, c = Ok a /\ f a = Ok b.
Proof. destruct c as [a| |e]; simpl; intros H; try discriminate. eauto. Qed.

Lemma int_Ok (z : Z) : INT_MIN <= z <= INT_MAX -> int z = Ok z.
Proof.
  intros [Hlo Hhi]. unfold int, in_int.
  apply Z.leb_le in Hlo, Hhi. now rewrite Hlo, Hhi.
Qed.

Lemma int_inv (z r : Z) : int z = Ok r -> r = z /\ INT_MIN <= z <= INT_MAX.
Proof.
  unfold int, in_int.
  destruct (Z.leb_spec INT_MIN z), (Z.leb_spec z INT_MAX); simpl; intros [= <-]; lia.
Qed.

(** ** The escape loop *)

Section EscapeLoop.

Variable m : Mandlebrot.
Variable c : complex.

#[local] Abbreviation below := (below m).

Lemma steps_S (z : complex) (k : nat) :
  steps c z (S k) = step (steps c z k) c.
Proof. revert z. induction k as [|k IH]; intros z; [reflexivity|]. apply (IH (step z c)). Qed.

(** What the loop returns, and that it does return: started with a counter
    [iN] and enough fuel, it applies [step] some [k] times while the norm
    stays below the threshold, and leaves either because the norm test
    fails, with the counter at [iN + k], or because the counter test fails,
    with the counter one past the value it compared. *)
Lemma escapeLoop_exit (fuel : nat) :
  forall (z : complex) (iN : Z),
    0 <= iN < INT_MAX -> maxIterations m < INT_MAX ->
    (Z.to_nat (maxIterations m - iN) < fuel)%nat ->
    exists k : nat,
      (forall j, (j < k)%nat -> below (steps c z j) = true) /\
      iN + Z.of_nat k <= Z.max iN (maxIterations m) /\
      ((below (steps c z k) = false /\
        escapeLoop m fuel c z iN = Some (Ok (steps c z k, iN + Z.of_nat k)))
       \/
       (below (steps c z k) = true /\ maxIterations m <= iN + Z.of_nat k /\
        escapeLoop m fuel c z iN = Some (Ok (steps c z k, iN + Z.of_nat k + 1)))).
Proof.
  induction fuel as [|fuel IH]; intros z iN HiN Hmax Hfuel; [lia|].
  simpl. fold (below z). destruct (below z) eqn:Hz.
  - assert (HiN1 : INT_MIN <= iN + 1 <= INT_MAX).
    { unfold INT_MIN, INT_MAX in *. destruct (Z.ltb_spec iN (maxIterations m)); lia. }
    destruct (Z.ltb_spec iN (maxIterations m)) as [Hlt|Hge].
    + rewrite (int_Ok _ HiN1).
      destruct (IH (step z c) (iN + 1)) as (k & Hbelow & Hk & Hexit); [lia..|].
      exists (S k). split; [|split].
      * intros [|j] Hj; [exact Hz|]. simpl. apply Hbelow. lia.
      * lia.
      * simpl steps.
        replace (iN + Z.of_nat (S k)) with (iN + 1 + Z.of_nat k) by lia.
        destruct Hexit as [[Hb He]|(Hb & Hm & He)]; [left|right]; auto.
    + rewrite (int_Ok _ HiN1).
      exists O. split; [intros j Hj; lia|]. split; [lia|].
      right. simpl. rewrite Z.add_0_r. auto.
  - exists O. split; [intros j Hj; lia|]. split; [lia|].
    left. simpl. rewrite Z.add_0_r. auto.
Qed.

(** The fuel of [escape] never runs out, whatever [maxIterations] is. *)
Lemma escapeLoop_fuel (fuel : nat) :
  forall (z : complex) (iN : Z),
    (Z.to_nat (maxIterations m - iN) < fuel)%nat ->
    escapeLoop m fuel c z iN <> None.
Proof.
  induction fuel as [|fuel IH]; intros z iN Hfuel; [lia|].
  simpl. destruct (norm z <? stopNorm m)%float; [|discriminate].
  destruct (int (iN + 1)) as [iN'| |] eqn:Hint; try discriminate.
  apply int_inv in Hint as [-> _].
  destruct (Z.ltb_spec iN (maxIterations m)); [|discriminate].
  apply IH. lia.
Qed.

Lemma escape_fuel : escapeLoop m (escapeFuel m) c c 0 <> None.
Proof. apply escapeLoop_fuel. unfold escapeFuel. lia. Qed.

(** The same for [escape], which starts the loop at [c] with counter 0. *)
Lemma escape_exit :
  maxIterations m < INT_MAX ->
  exists k : nat,
    (forall j, (j < k)%nat -> below (orbit c j) = true) /\
    Z.of_nat k <= Z.max 0 (maxIterations m) /\
    ((below (orbit c k) = false /\
      escape m c = Ok (orbit c k, Z.of_nat k))
     \/
     (below (orbit c k) = true /\ maxIterations m <= Z.of_nat k /\
      escape m c = Ok (orbit c k, Z.of_nat k + 1))).
Proof.
  intros Hmax.
  destruct (escapeLoop_exit (escapeFuel m) c 0) as (k & Hbelow & Hk & Hexit);
    [unfold INT_MAX; lia|lia|unfold escapeFuel; lia|].
  exists k. unfold escape, orbit. rewrite !Z.add_0_l in Hexit, Hk.
  split; [exact Hbelow|]. split; [lia|].
  destruct Hexit as [[Hb He]|(Hb & Hm & He)]; [left|right]; rewrite He; auto.
Qed.

End EscapeLoop.

(** ** Comparisons of [double]s *)

Lemma SFcompare_antisym (x y : spec_float) :
  SFcompare y x = option_map CompOpp (SFcompare x y).
Proof.
  destruct x as [sx|sx| |sx mx ex], y as [sy|sy| |sy my ey]; simpl; try reflexivity;
    try (destruct sx; reflexivity); try (destruct sy; reflexivity);
    try (destruct sx, sy; reflexivity).
  change (Pcompare my mx Eq) with (my ?= mx)%positive.
  change (Pcompare mx my Eq) with (mx ?= my)%positive.
  rewrite (Z.compare_antisym ex ey), (Pos.compare_antisym mx my).
  destruct sx, sy, (ex ?= ey), (mx ?= my)%positive; reflexivity.
Qed.

(** Away from NaN, [b <= a] is the negation of [a < b]. *)
Lemma leb_negb_ltb (a b : float) :
  PrimFloat.is_nan a = false -> PrimFloat.is_nan b = false ->
  (b <=? a)%float = negb (a <? b)%float.
Proof.
  unfold PrimFloat.is_nan. rewrite !FloatAxioms.eqb_spec, leb_spec, ltb_spec.
  unfold SFeqb, SFleb, SFltb. rewrite (SFcompare_antisym (Prim2SF a) (Prim2SF b)).
  destruct (Prim2SF a) as [sx|sx| |sx mx ex]; try discriminate;
    destruct (Prim2SF b) as [sy|sy| |sy my ey]; try discriminate; intros _ _.
  all: destruct (SFcompare _ _) as [[]|] eqn:E; simpl in *;
    reflexivity || discriminate E.
Qed.

(** ** The iteration count *)

Lemma in_raster_allocated (img : Image) (x y : Z) :
  0 <= x < width img -> 0 <= y < height img -> allocated img x y = true.
Proof.
  intros Hx Hy. unfold allocated.
  repeat (apply andb_true_intro; split);
    try apply Z.leb_le; try apply Z.ltb_lt; lia.
Qed.

(** C3, as stated, fails: the pixel of [originEngine] never leaves the
    threshold, and the loop exits with [iN = 101] while [maxIterations] is
    100. *)
Lemma iN_exceeds_maxIterations :
  maxIterations originEngine = 100 /\
  0 <= 0 < width (image originEngine) /\ 0 <= 0 < height (image originEngine) /\
  escape originEngine (pixelPoint originEngine 0 0) = Ok (mkComplex 0 0, 101) /\
  ~ (0 <= 101 <= maxIterations originEngine).
Proof.
  split; [reflexivity|]. split; [simpl; lia|]. split; [simpl; lia|].
  split; [vm_compute; reflexivity|]. simpl. lia.
Qed.

(** C3 (amended): for every pixel of the raster, when [maxIterations] is
    non-negative and below [INT_MAX], the loop of [computePixel] terminates
    after [k <= maxIterations] applications of [step]; its counter [iN] is
    then in [[0, maxIterations + 1]]: it is [k] when the norm test ended the
    loop, and [maxIterations + 1] when the counter test did. *)
Theorem iN_range (m : Mandlebrot) (x y : Z) :
  0 <= x < width (image m) -> 0 <= y < height (image m) ->
  0 <= maxIterations m < INT_MAX ->
  exists (k : nat) (iN : Z),
    escape m (pixelPoint m x y) = Ok (orbit (pixelPoint m x y) k, iN) /\
    0 <= Z.of_nat k <= maxIterations m /\
    0 <= iN <= maxIterations m + 1 /\
    ((below m (orbit (pixelPoint m x y) k) = false /\ iN = Z.of_nat k) \/
     (below m (orbit (pixelPoint m x y) k) = true /\
      Z.of_nat k = maxIterations m /\ iN = maxIterations m + 1)).
Proof.
  intros _ _ Hmax.
  destruct (escape_exit m (pixelPoint m x y)) as (k & _ & Hk & Hexit); [lia|].
  destruct Hexit as [[Hb He]|(Hb & Hm & He)].
  - exists k, (Z.of_nat k). repeat split; auto; lia.
  - exists k, (Z.of_nat k + 1). repeat split; auto; try lia.
    right. repeat split; auto; lia.
Qed.

Lemma iN_range_witness :
  exists (k : nat) (iN : Z),
    escape originEngine (pixelPoint originEngine 0 0)
      = Ok (orbit (pixelPoint originEngine 0 0) k, iN) /\
    0 <= Z.of_nat k <= maxIterations originEngine /\
    0 <= iN <= maxIterations originEngine + 1 /\
    ((below originEngine (orbit (pixelPoint originEngine 0 0) k) = false /\
      iN = Z.of_nat k) \/
     (below originEngine (orbit (pixelPoint originEngine 0 0) k) = true /\
      Z.of_nat k = maxIterations originEngine /\
      iN = maxIterations originEngine + 1)).
Proof. apply (iN_range originEngine 0 0); simpl; unfold INT_MAX; lia. Defined.

(** ** The reference escape-time iteration *)

Lemma referenceLoop_escape (stop : float) (c : complex) (k : nat) :
  forall (budget : nat) (z : complex) (count : Z),
    (k <= budget)%nat ->
    (forall j, (j < k)%nat -> (stop <=? norm (steps c z j))%float = false) ->
    (stop <=? norm (steps c z k))%float = true ->
    referenceLoop stop budget c z count = (steps c z k, count + Z.of_nat k).
Proof.
  induction k as [|k IH]; intros budget z count Hk Hlow Hesc.
  - simpl in *. rewrite Z.add_0_r. destruct budget; simpl; [reflexivity|].
    now rewrite Hesc.
  - destruct budget as [|budget]; [lia|]. simpl.
    pose proof (Hlow O ltac:(lia)) as H0. simpl in H0. rewrite H0.
    change (cadd (cmul z z) c) with (step z c).
    rewrite (IH budget (step z c) (count + 1)).
    + f_equal. lia.
    + lia.
    + intros j Hj. apply (Hlow (S j)). lia.
    + exact Hesc.
Qed.

Lemma referenceLoop_budget (stop : float) (c : complex) :
  forall (budget : nat) (z : complex) (count : Z),
    (forall j, (j < budget)%nat -> (stop <=? norm (steps c z j))%float = false) ->
    referenceLoop stop budget c z count = (steps c z budget, count + Z.of_nat budget).
Proof.
  induction budget as [|budget IH]; intros z count Hlow.
  - simpl. now rewrite Z.add_0_r.
  - simpl. pose proof (Hlow O ltac:(lia)) as H0. simpl in H0. rewrite H0.
    change (cadd (cmul z z) c) with (step z c).
    rewrite (IH (step z c) (count + 1)).
    + f_equal. lia.
    + intros j Hj. apply (Hlow (S j)). lia.
Qed.

Section ReferenceIteration.

Variables log2 exp cos : float -> float.

(** C2: for every pixel of the raster, [computePixel] runs the reference
    iteration: from the same point [c], started at [z = c], it applies
    [z <- z * z + c] the same number of times and ends on the same [z]; that
    number is its counter [iN] capped at [maxIterations] (the counter is one
    more when the count ended the loop), and the pixel it stores is computed
    from this [z] and this number.  The comparison [|z|^2 >= stopNorm] of
    the reference and the test [norm (z) < stopNorm] of the code are opposite
    on numbers: [stopNorm] and the norms that the loop compares, up to the
    one that ends it, are not NaN.  Nothing is asked of the orbit after the
    escape. *)
Theorem computePixel_runs_reference_iteration (m : Mandlebrot) (x y : Z) :
  0 <= x < width (image m) -> 0 <= y < height (image m) ->
  0 <= maxIterations m < INT_MAX ->
  PrimFloat.is_nan (stopNorm m) = false ->
  (forall k, Z.of_nat k <= maxIterations m ->
     (forall j, (j < k)%nat -> below m (orbit (pixelPoint m x y) j) = true) ->
     PrimFloat.is_nan (norm (orbit (pixelPoint m x y) k)) = false) ->
  exists (z : complex) (iN : Z),
    escape m (pixelPoint m x y) = Ok (z, iN) /\
    referenceIteration m x y = (z, Z.min iN (maxIterations m)) /\
    computePixel log2 exp cos m x y
    = (color ← (if maxIterations m <=? Z.min iN (maxIterations m)
                then Ok (bodyColor m)
                else gradientColor log2 exp cos m z (Z.min iN (maxIterations m)));
       Ok (store m x y color)).
Proof.
  intros Hx Hy Hmax Hstop Hnan.
  pose proof (in_raster_allocated _ _ _ Hx Hy) as Ha.
  destruct (escape_exit m (pixelPoint m x y)) as (k & Hlow & Hk & Hexit); [lia|].
  assert (Hcmp : forall j, (j <= k)%nat ->
            (stopNorm m <=? norm (orbit (pixelPoint m x y) j))%float
            = negb (below m (orbit (pixelPoint m x y) j))).
  { intros j Hj. apply leb_negb_ltb; [|exact Hstop].
    apply Hnan; [lia|]. intros i Hi. apply Hlow. lia. }
  unfold referenceIteration. fold (pixelPoint m x y).
  destruct Hexit as [[Hb He]|(Hb & Hm & He)].
  - exists (orbit (pixelPoint m x y) k), (Z.of_nat k). split; [exact He|].
    rewrite Z.min_l by lia. split.
    + rewrite (referenceLoop_escape _ _ k).
      * reflexivity.
      * lia.
      * intros j Hj. fold (orbit (pixelPoint m x y) j).
        rewrite Hcmp, Hlow by lia. reflexivity.
      * fold (orbit (pixelPoint m x y) k). rewrite Hcmp, Hb by lia. reflexivity.
    + unfold computePixel. rewrite He. simpl. rewrite Ha. reflexivity.
  - exists (orbit (pixelPoint m x y) k), (Z.of_nat k + 1). split; [exact He|].
    rewrite Z.min_r by lia. split.
    + assert (Z.to_nat (maxIterations m) = k) as -> by lia.
      rewrite referenceLoop_budget.
      * f_equal. lia.
      * intros j Hj. fold (orbit (pixelPoint m x y) j).
        rewrite Hcmp, Hlow by lia. reflexivity.
    + unfold computePixel. rewrite He. simpl. rewrite Ha.
      destruct (Z.leb_spec (maxIterations m) (Z.of_nat k + 1)); [|lia].
      destruct (Z.leb_spec (maxIterations m) (maxIterations m)); [|lia].
      reflexivity.
Qed.

End ReferenceIteration.

(** Pixel [(0, 0)] of the engine of [main] leaves the threshold after two
    steps. *)
Lemma computePixel_runs_reference_iteration_witness :
  exists (m : Mandlebrot) (z : complex),
    Mandlebrot_new (fun d => d) 500 (-2.7) 1.25 1.7 (-1.25) = Ok m /\
    escape (fold_left push_back mainGradient m)
      (pixelPoint (fold_left push_back mainGradient m) 0 0) = Ok (z, 2) /\
    referenceIteration (fold_left push_back mainGradient m) 0 0
    = (z, Z.min 2 (maxIterations (fold_left push_back mainGradient m))) /\
    computePixel (fun d => d) (fun d => d) (fun d => d)
      (fold_left push_back mainGradient m) 0 0
    = (color ← (if maxIterations (fold_left push_back mainGradient m)
                   <=? Z.min 2 (maxIterations (fold_left push_back mainGradient m))
                then Ok (bodyColor (fold_left push_back mainGradient m))
                else gradientColor (fun d => d) (fun d => d) (fun d => d)
                       (fold_left push_back mainGradient m) z
                       (Z.min 2 (maxIterations (fold_left push_back mainGradient m))));
       Ok (store (fold_left push_back mainGradient m) 0 0 color)).
Proof.
  match goal with
  | |- exists m z, ?N = Ok m /\ _ =>
      let r := eval vm_compute in N in
      match r with Ok ?m0 => exists m0 end
  end.
  match goal with
  | |- exists z, _ /\ ?E = Ok (z, 2) /\ _ =>
      let r := eval vm_compute in E in
      match r with Ok (?z0, _) => exists z0 end
  end.
  split; [vm_compute; reflexivity|].
  match goal with
  | |- escape ?e _ = _ /\ _ =>
      destruct (computePixel_runs_reference_iteration
                  (fun d => d) (fun d => d) (fun d => d) e 0 0)
        as (z & iN & He & Href & Hpix)
  end.
  - simpl. lia.
  - simpl. lia.
  - simpl. unfold INT_MAX. lia.
  - reflexivity.
  - intros k _ Hlow. destruct k as [|[|[|k]]]; try (vm_compute; reflexivity).
    pose proof (Hlow 2%nat ltac:(lia)) as H2. vm_compute in H2. discriminate H2.
  - match type of He with
    | ?E = _ =>
        let r := eval vm_compute in E in
        assert (Hval : E = r) by (vm_compute; reflexivity)
    end.
    rewrite He in Hval. injection Hval as -> ->.
    split; [exact He|]. split; [exact Href|exact Hpix].
Defined.

(** ** The two branches of [computePixel] *)

Section Branches.

Variables log2 exp cos : float -> float.

Lemma computePixel_body (m : Mandlebrot) (x y : Z) (z : complex) (iN : Z) :
  allocated (image m) x y = true ->
  escape m (pixelPoint m x y) = Ok (z, iN) ->
  maxIterations m <= iN ->
  computePixel log2 exp cos m x y = Ok (store m x y (bodyColor m)).
Proof.
  intros Ha He Hi. unfold computePixel. rewrite He. simpl. rewrite Ha.
  destruct (Z.leb_spec (maxIterations m) iN); [reflexivity|lia].
Qed.

Lemma computePixel_gradient (m : Mandlebrot) (x y : Z) (z : complex) (iN : Z) :
  allocated (image m) x y = true ->
  escape m (pixelPoint m x y) = Ok (z, iN) ->
  iN < maxIterations m ->
  computePixel log2 exp cos m x y
  = (color ← gradientColor log2 exp cos m z iN; Ok (store m x y color)).
Proof.
  intros Ha He Hi. unfold computePixel. rewrite He. simpl. rewrite Ha.
  destruct (Z.leb_spec (maxIterations m) iN); [lia|reflexivity].
Qed.

(** C6: a pixel of the raster whose orbit stays below the threshold for all
    of the [maxIterations] steps (an interior pixel: the count ends the loop)
    is assigned exactly [bodyColor]. *)
Theorem interior_pixel_bodyColor (m : Mandlebrot) (x y : Z) :
  0 <= x < width (image m) -> 0 <= y < height (image m) ->
  maxIterations m < INT_MAX ->
  (forall k, Z.of_nat k <= maxIterations m ->
             below m (orbit (pixelPoint m x y) k) = true) ->
  computePixel log2 exp cos m x y = Ok (store m x y (bodyColor m)).
Proof.
  intros Hx Hy Hmax Hin.
  pose proof (in_raster_allocated _ _ _ Hx Hy) as Ha.
  destruct (escape_exit m (pixelPoint m x y) Hmax) as (k & _ & Hk & Hexit).
  destruct Hexit as [[Hb He]|(Hb & Hm & He)].
  - apply (computePixel_body m x y _ _ Ha He).
    destruct (Z.le_gt_cases (maxIterations m) (Z.of_nat k)) as [|Hlt]; [assumption|].
    rewrite Hin in Hb by lia. discriminate.
  - apply (computePixel_body m x y _ _ Ha He). lia.
Qed.

(** C10: a pixel of the raster whose orbit first leaves the threshold
    exactly after [maxIterations] steps is assigned [bodyColor]; and whenever
    the loop ends with [iN < maxIterations], which is the condition of the
    gradient branch, the orbit left the threshold for the first time after
    [iN] steps, strictly fewer than [maxIterations]. *)
Theorem late_escape_bodyColor (m : Mandlebrot) (x y : Z) :
  0 <= x < width (image m) -> 0 <= y < height (image m) ->
  0 <= maxIterations m < INT_MAX ->
  ((forall k, Z.of_nat k < maxIterations m ->
              below m (orbit (pixelPoint m x y) k) = true) ->
   below m (orbit (pixelPoint m x y) (Z.to_nat (maxIterations m))) = false ->
   computePixel log2 exp cos m x y = Ok (store m x y (bodyColor m)))
  /\
  (forall z iN,
     escape m (pixelPoint m x y) = Ok (z, iN) -> iN < maxIterations m ->
     computePixel log2 exp cos m x y
     = (color ← gradientColor log2 exp cos m z iN; Ok (store m x y color)) /\
     exists k : nat,
       iN = Z.of_nat k /\ z = orbit (pixelPoint m x y) k /\
       below m (orbit (pixelPoint m x y) k) = false /\
       forall j, (j < k)%nat -> below m (orbit (pixelPoint m x y) j) = true).
Proof.
  intros Hx Hy Hmax.
  pose proof (in_raster_allocated _ _ _ Hx Hy) as Ha.
  destruct (escape_exit m (pixelPoint m x y)) as (k & Hlow & Hk & Hexit); [lia|].
  split.
  - intros Hin Hout.
    destruct Hexit as [[Hb He]|(Hb & Hm & He)].
    + apply (computePixel_body m x y _ _ Ha He).
      destruct (Z.le_gt_cases (maxIterations m) (Z.of_nat k)) as [|Hlt]; [assumption|].
      rewrite Hin in Hb by lia. discriminate.
    + assert (Z.to_nat (maxIterations m) = k) as Hkm by lia.
      rewrite Hkm, Hb in Hout. discriminate.
  - intros z iN He Hi. split; [exact (computePixel_gradient m x y z iN Ha He Hi)|].
    destruct Hexit as [[Hb He']|(Hb & Hm & He')];
      rewrite He' in He; injection He as <- <-.
    + exists k. auto.
    + lia.
Qed.

End Branches.

Lemma orbit_origin (k : nat) : orbit (mkComplex 0 0) k = mkComplex 0 0.
Proof.
  unfold orbit. induction k as [|k IH]; [reflexivity|].
  rewrite steps_S, IH. reflexivity.
Qed.

Lemma interior_pixel_bodyColor_witness :
  computePixel (fun d => d) (fun d => d) (fun d => d) originEngine 0 0
  = Ok (store originEngine 0 0 (bodyColor originEngine)).
Proof.
  apply (interior_pixel_bodyColor _ _ _ originEngine 0 0);
    try (simpl; unfold INT_MAX; lia).
  intros k _. change (pixelPoint originEngine 0 0) with (mkComplex 0 0).
  rewrite orbit_origin. reflexivity.
Defined.

Lemma late_escape_bodyColor_witness :
  computePixel (fun d => d) (fun d => d) (fun d => d) lateEngine 0 0
  = Ok (store lateEngine 0 0 (bodyColor lateEngine)).
Proof.
  apply (late_escape_bodyColor (fun d => d) (fun d => d) (fun d => d) lateEngine 0 0);
    try (simpl; unfold INT_MAX; lia).
  - intros k Hk. simpl in Hk. assert (k = O) as -> by lia. reflexivity.
  - reflexivity.
Defined.

(** ** Construction *)

Section Construction.

Variable log2 : float -> float.

(** What the constructor returns when it returns: the engine around the
    image that [Image_new] built from the two converted products. *)
Lemma Mandlebrot_new_Ok (resolution l t r b : float) (m : Mandlebrot) :
  Mandlebrot_new log2 resolution l t r b = Ok m ->
  exists w h : Z,
    int_of_double (resolution * (r - l)) = Ok w /\
    int_of_double (resolution * (t - b)) = Ok h /\
    Image_new w h = Ok (image m) /\
    left m = l /\ right m = r /\ top m = t /\ bottom m = b /\
    maxIterations m = 100 /\ stopNorm m = 400%float /\
    colorList m = [] /\ bodyColor m = mkColor 0 0 0.
Proof.
  unfold Mandlebrot_new. intros H.
  apply bind_Ok in H as (w & Hw & H). apply bind_Ok in H as (h & Hh & H).
  apply bind_Ok in H as (img & Himg & H). injection H as <-.
  exists w, h. simpl. repeat split; assumption.
Qed.

Lemma Image_new_Ok (w h : Z) (img : Image) :
  Image_new w h = Ok img -> img = mkImage ∅ w h /\ 0 <= h.
Proof.
  unfold Image_new. destruct (Z.ltb_spec h 0); [discriminate|].
  destruct (h =? 0); [intros [= <-]; auto|].
  destruct (int (w * 3)) as [n| |]; simpl; try discriminate.
  destruct (n <? 0); [discriminate|]. intros [= <-]; auto.
Qed.

Lemma convert_truncZ (lo hi : Z) (d : float) (z : Z) :
  convert lo hi d = Ok z -> truncZ d = Some z /\ lo <= z <= hi.
Proof.
  unfold convert. destruct (truncZ d) as [z'|]; [|discriminate].
  destruct (Z.leb_spec lo z'), (Z.leb_spec z' hi); simpl; intros [= <-]; auto.
Qed.

Lemma truncZ_floorZ_pos (d : float) (z : Z) :
  truncZ d = Some z -> 0 < z -> floorZ d = Some z.
Proof.
  unfold truncZ, floorZ. destruct (Prim2SF d) as [s|s| |s mant e]; try discriminate.
  - intros [= <-]. lia.
  - destruct s; [|auto]. intros [= <-] Hz.
    pose proof (Z.shiftl_nonneg (Z.pos mant) e). lia.
Qed.

Lemma truncZ_floorZ_nonneg (d : float) :
  (0 <=? d)%float = true -> floorZ d = truncZ d.
Proof.
  rewrite leb_spec. unfold truncZ, floorZ.
  change (Prim2SF 0) with (S754_zero false).
  destruct (Prim2SF d) as [s|s| |s mant e]; try reflexivity.
  destruct s; [discriminate|reflexivity].
Qed.

(** C8, as stated, fails: [Mandlebrot (1, 0, 1, 0, 0)] has a viewport of
    zero width, the width of its raster is [int (1 * (0 - 0)) = 0], and the
    constructor returns an engine all the same. *)
Lemma zero_width_engine_is_constructed :
  int_of_double (1 * (0 - 0)) = Ok 0 /\
  forall log2' : float -> float,
    exists m : Mandlebrot,
      Mandlebrot_new log2' 1 0 1 0 0 = Ok m /\
      width (image m) = 0 /\ height (image m) = 1.
Proof.
  split; [reflexivity|]. intros log2'. eexists. split; [reflexivity|].
  split; reflexivity.
Qed.

(** C8 (amended): the constructor has no check of the raster size.  When the
    two products convert to a height of zero, or to a width of zero and a
    height that is not negative, construction succeeds and returns an engine
    whose raster has these dimensions and no pixel. *)
Theorem zero_size_raster_is_constructed (resolution l t r b : float) (w h : Z) :
  int_of_double (resolution * (r - l)) = Ok w ->
  int_of_double (resolution * (t - b)) = Ok h ->
  h = 0 \/ (w = 0 /\ 0 <= h) ->
  exists m : Mandlebrot,
    Mandlebrot_new log2 resolution l t r b = Ok m /\
    image m = mkImage ∅ w h.
Proof.
  intros Hw Hh Hzero. unfold Mandlebrot_new. rewrite Hw, Hh. simpl.
  assert (Himg : Image_new w h = Ok (mkImage ∅ w h)).
  { unfold Image_new. destruct Hzero as [->|[-> Hh0]]; [reflexivity|].
    destruct (Z.ltb_spec h 0); [lia|]. destruct (h =? 0); reflexivity. }
  rewrite Himg. simpl. eexists. split; reflexivity.
Qed.

(** C9: the constructor sizes the raster to the floor of the two products
    [resolution * (right - left)] and [resolution * (top - bottom)], computed
    in [double], for every raster whose dimensions are positive integers, at
    least 1, as the specification requires of them.  For the parameters of
    [main] the raster is 2200 wide and 1250 high. *)
Theorem raster_dimensions (resolution l t r b : float) (m : Mandlebrot) :
  Mandlebrot_new log2 resolution l t r b = Ok m ->
  1 <= width (image m) -> 1 <= height (image m) ->
  floorZ (resolution * (r - l)) = Some (width (image m)) /\
  floorZ (resolution * (t - b)) = Some (height (image m)) /\
  exists m0 : Mandlebrot,
    Mandlebrot_new log2 500 (-2.7) 1.25 1.7 (-1.25) = Ok m0 /\
    width (image m0) = 2200 /\ height (image m0) = 1250.
Proof.
  intros H Hwidth Hheight.
  apply Mandlebrot_new_Ok in H as (w & h & Hw & Hh & Himg & _).
  apply Image_new_Ok in Himg as [Himg _]. rewrite Himg in *. simpl in *.
  apply convert_truncZ in Hw as [Hw _], Hh as [Hh _].
  split; [|split].
  - apply truncZ_floorZ_pos; [exact Hw|lia].
  - apply truncZ_floorZ_pos; [exact Hh|lia].
  - eexists. split; [reflexivity|]. split; reflexivity.
Qed.

End Construction.

Lemma zero_size_raster_is_constructed_witness :
  exists m : Mandlebrot,
    Mandlebrot_new (fun d => d) 1 0 0 1 0 = Ok m /\
    image m = mkImage ∅ 1 0.
Proof.
  apply (zero_size_raster_is_constructed (fun d => d) 1 0 0 1 0 1 0);
    [reflexivity|reflexivity|left; reflexivity].
Defined.

Lemma raster_dimensions_witness :
  exists m : Mandlebrot,
    Mandlebrot_new (fun d => d) 500 (-2.7) 1.25 1.7 (-1.25) = Ok m /\
    floorZ (500 * (1.7 - -2.7)) = Some (width (image m)) /\
    floorZ (500 * (1.25 - -1.25)) = Some (height (image m)) /\
    width (image m) = 2200 /\ height (image m) = 1250.
Proof.
  eexists. split; [reflexivity|].
  destruct (raster_dimensions (fun d => d) 500 (-2.7) 1.25 1.7 (-1.25) _ eq_refl)
    as (Hw & Hh & _); [apply Z.leb_le; vm_compute; reflexivity..|].
  split; [exact Hw|]. split; [exact Hh|]. split; reflexivity.
Defined.

(** ** The column blocks of [computeMultiCore] *)

Lemma MAX_BLOCK_WIDTH_value : MAX_BLOCK_WIDTH = 21474836.
Proof. reflexivity. Qed.

Lemma block_bounds_Ok (w b : Z) :
  0 <= w <= MAX_BLOCK_WIDTH -> 0 <= b < 100 ->
  blockLeft w b = Ok (b * w / 100) /\ blockRight w b = Ok ((b + 1) * w / 100).
Proof.
  intros Hw Hb. rewrite MAX_BLOCK_WIDTH_value in Hw.
  unfold blockLeft, blockRight.
  rewrite !int_Ok by (unfold INT_MIN, INT_MAX; lia). simpl.
  rewrite !int_Ok by (unfold INT_MIN, INT_MAX; nia). simpl.
  rewrite Z.add_0_r, !Z.quot_div_nonneg by nia. auto.
Qed.

Lemma block_of_column (w x : Z) :
  0 <= x < w ->
  exists b, 0 <= b < 100 /\ b * w / 100 <= x < (b + 1) * w / 100.
Proof.
  intros Hx. exists ((100 * (x + 1) - 1) / w).
  pose proof (Z.div_mod (100 * (x + 1) - 1) w ltac:(lia)) as Hdm.
  pose proof (Z.mod_pos_bound (100 * (x + 1) - 1) w ltac:(lia)) as Hmod.
  set (b := (100 * (x + 1) - 1) / w) in *.
  assert (Hb0 : 0 <= b) by (apply Z.div_pos; lia).
  split; [split; [exact Hb0|nia]|]. split.
  - assert (b * w / 100 < x + 1) by (apply Z.div_lt_upper_bound; nia). lia.
  - assert (x + 1 <= (b + 1) * w / 100) by (apply Z.div_le_lower_bound; nia). lia.
Qed.

Lemma block_columns_in_raster (w b x : Z) :
  0 <= w -> 0 <= b < 100 ->
  b * w / 100 <= x < (b + 1) * w / 100 -> 0 <= x < w.
Proof.
  intros Hw Hb [Hl Hr]. split.
  - etransitivity; [|exact Hl]. apply Z.div_pos; nia.
  - eapply Z.lt_le_trans; [exact Hr|].
    apply Z.div_le_upper_bound; nia.
Qed.

Lemma block_unique (w b b' x : Z) :
  0 <= w -> 0 <= b -> 0 <= b' ->
  b * w / 100 <= x < (b + 1) * w / 100 ->
  b' * w / 100 <= x < (b' + 1) * w / 100 ->
  b = b'.
Proof.
  intros Hw Hb Hb' [Hl Hr] [Hl' Hr'].
  destruct (Z.lt_trichotomy b b') as [Hlt|[Heq|Hgt]]; [exfalso|exact Heq|exfalso].
  - assert ((b + 1) * w / 100 <= b' * w / 100) by (apply Z.div_le_mono; nia). lia.
  - assert ((b' + 1) * w / 100 <= b * w / 100) by (apply Z.div_le_mono; nia). lia.
Qed.

(** ** Loops over pixels *)

Lemma forM_app {S I : Type} (body : S -> I -> outcome S) (l1 l2 : list I) (s : S) :
  forM body (l1 ++ l2) s = (s' ← forM body l1 s; forM body l2 s').
Proof.
  revert s. induction l1 as [|i l1 IH]; intros s; simpl; [reflexivity|].
  destruct (body s i); simpl; auto.
Qed.

Lemma elem_of_areaPixels (l t r b x y : Z) :
  (x, y) ∈ areaPixels l t r b <-> (l <= x < r) /\ (t <= y < b).
Proof.
  unfold areaPixels. rewrite list_elem_of_bind. split.
  - intros (y' & Hin & Hy). apply list_elem_of_bind in Hin as (x' & Hin & Hx).
    apply list_elem_of_singleton in Hin. injection Hin as -> ->.
    apply elem_of_seqZ in Hx, Hy. lia.
  - intros [Hx Hy]. exists y. split; [|apply elem_of_seqZ; lia].
    apply list_elem_of_bind. exists x. split; [|apply elem_of_seqZ; lia].
    apply list_elem_of_singleton. reflexivity.
Qed.

Lemma pending_insert (ws : list worker) (i : nat) (w w' : worker) :
  ws !! i = Some w ->
  pending (<[i := w']> ws) ++ todoOf w ≡ₚ pending ws ++ todoOf w'.
Proof.
  intros Hi. unfold pending.
  rewrite <- (take_drop_middle ws i w Hi) at 2.
  rewrite (insert_take_drop ws i w') by (eapply lookup_lt_Some; eauto).
  rewrite !bind_app, !bind_cons.
  generalize (take i ws ≫= todoOf) (drop (S i) ws ≫= todoOf) (todoOf w) (todoOf w').
  intros l1 l2 l3 l4. solve_Permutation.
Qed.

Lemma poolCost_insert (ws : list worker) (i : nat) (w w' : worker) :
  ws !! i = Some w ->
  (poolCost (<[i := w']> ws) + workerCost w = poolCost ws + workerCost w')%nat.
Proof.
  intros Hi. unfold poolCost.
  rewrite <- (take_drop_middle ws i w Hi) at 2.
  rewrite (insert_take_drop ws i w') by (eapply lookup_lt_Some; eauto).
  rewrite !sum_list_with_app. simpl. lia.
Qed.

(** ** Single-core and multi-core rendering *)

Section Parallel.

Variables log2 exp cos : float -> float.

#[local] Abbreviation pixelColor := (pixelColor log2 exp cos).
#[local] Abbreviation computePixel := (computePixel log2 exp cos).
#[local] Abbreviation computeArea := (computeArea log2 exp cos).
#[local] Abbreviation computeSingleCore := (computeSingleCore log2 exp cos).
#[local] Abbreviation workerStep := (workerStep log2 exp cos).
#[local] Abbreviation run := (run log2 exp cos).
#[local] Abbreviation computeMultiCore := (computeMultiCore log2 exp cos).

(** [computePixel] reads the parameters of the engine, never its raster, and
    writes one pixel. *)
Lemma pixelColor_setData (m : Mandlebrot) (d : gmap (Z * Z) Color) (x y : Z) :
  pixelColor (setData m d) x y = pixelColor m x y.
Proof. reflexivity. Qed.

Lemma computePixel_Ok (m m' : Mandlebrot) (x y : Z) :
  computePixel m x y = Ok m' <->
  allocated (image m) x y = true /\
  exists c, pixelColor m x y = Ok c /\ m' = store m x y c.
Proof.
  unfold computePixel, pixelColor.
  destruct (escape m (pixelPoint m x y)) as [[z iN]| |]; simpl.
  - destruct (allocated (image m) x y); simpl.
    + destruct (if maxIterations m <=? iN then _ else _) as [c| |]; simpl; split.
      * intros [= <-]. eauto.
      * intros (_ & c' & [= <-] & ->). reflexivity.
      * discriminate.
      * intros (_ & c' & [=] & _).
      * discriminate.
      * intros (_ & c' & [=] & _).
    + split; [discriminate|]. intros [[=] _].
  - split; [discriminate|]. intros (_ & c & [=] & _).
  - split; [discriminate|]. intros (_ & c & [=] & _).
Qed.

(** The two loops of [computeArea] are one loop over [areaPixels]. *)
Lemma computeArea_pixels (m : Mandlebrot) (l t r b : Z) :
  computeArea m l t r b
  = forM (fun m '(x, y) => computePixel m x y) (areaPixels l t r b) m.
Proof.
  unfold computeArea, areaPixels.
  generalize (seqZ l (r - l)) (seqZ t (b - t)). intros xs ys. revert m.
  induction ys as [|y ys IH]; intros m; [reflexivity|].
  rewrite bind_cons, forM_app. simpl.
  assert (Hrow : forall m,
            forM (fun m x => computePixel m x y) xs m
            = forM (fun m '(x, y) => computePixel m x y) (xs ≫= fun x => [(x, y)]) m).
  { clear. induction xs as [|x xs IHx]; intros m; [reflexivity|].
    rewrite bind_cons. simpl. destruct (computePixel m x y); simpl; auto. }
  rewrite Hrow. destruct (forM _ (xs ≫= _) m); simpl; auto.
Qed.

Section Render.

(** The engine at the start of the render. *)
Variable m0 : Mandlebrot.

#[local] Abbreviation inRaster := (inRaster m0).
#[local] Abbreviation rendered := (rendered log2 exp cos m0).
#[local] Abbreviation rasterPixels := (rasterPixels m0).
#[local] Abbreviation blockArea := (blockArea m0).
#[local] Abbreviation claimedPixels := (claimedPixels m0).
#[local] Abbreviation poolInv := (poolInv log2 exp cos m0).
#[local] Abbreviation blocksCost := (blocksCost m0).
#[local] Abbreviation poolMeasure := (poolMeasure m0).

Lemma rendered_nil : rendered [] (data (image m0)).
Proof. intros x y. split; [intros H; inversion H|reflexivity]. Qed.

Lemma rendered_snoc (l : list (Z * Z)) (d : gmap (Z * Z) Color) (x y : Z) (c : Color) :
  rendered l d -> pixelColor m0 x y = Ok c ->
  rendered (l ++ [(x, y)]) (<[(y, x) := c]> d).
Proof.
  intros Hr Hc x' y'. destruct (decide ((y', x') = (y, x))) as [[= -> ->]|Hne].
  - rewrite lookup_insert_eq. split; [eauto|].
    intros Hnot. exfalso. apply Hnot. apply elem_of_app. right.
    apply list_elem_of_singleton. reflexivity.
  - rewrite lookup_insert_ne by congruence.
    destruct (Hr x' y') as [Hin Hout]. split.
    + intros H. apply elem_of_app in H as [H|H]; [auto|].
      apply list_elem_of_singleton in H. congruence.
    + intros H. apply Hout. intros Hl. apply H. apply elem_of_app. auto.
Qed.

(** Two rasters that hold the same set of rendered pixels are equal. *)
Lemma rendered_unique (l l' : list (Z * Z)) (d d' : gmap (Z * Z) Color) :
  (forall x y, (x, y) ∈ l <-> (x, y) ∈ l') ->
  rendered l d -> rendered l' d' -> d = d'.
Proof.
  intros Hl Hd Hd'. apply map_eq. intros [y x].
  destruct (Hd x y) as [Hin Hout], (Hd' x y) as [Hin' Hout'].
  destruct (decide ((x, y) ∈ l)) as [H|H].
  - destruct (Hin H) as (c & Hc & ->).
    destruct (Hin' (proj1 (Hl x y) H)) as (c' & Hc' & ->). congruence.
  - rewrite Hout by assumption. rewrite Hout'; [reflexivity|].
    intros H'. apply H. apply Hl. assumption.
Qed.

(** A loop of [computePixel] over a list of pixels: it succeeds exactly when
    every pixel of the list is in the allocation and has a colour, and it
    then renders these pixels. *)
Lemma render_list_Ok (l : list (Z * Z)) :
  forall (pre : list (Z * Z)) (d : gmap (Z * Z) Color),
    rendered pre d ->
    (forall x y, (x, y) ∈ l ->
       allocated (image m0) x y = true /\ exists c, pixelColor m0 x y = Ok c) ->
    exists d',
      forM (fun m '(x, y) => computePixel m x y) l (setData m0 d) = Ok (setData m0 d') /\
      rendered (pre ++ l) d'.
Proof.
  induction l as [|[x y] l IH]; intros pre d Hd Hl.
  - exists d. rewrite app_nil_r. auto.
  - destruct (Hl x y) as (Ha & c & Hc); [left|].
    assert (Hstep : computePixel (setData m0 d) x y = Ok (setData m0 (<[(y, x) := c]> d))).
    { apply computePixel_Ok. split; [exact Ha|]. exists c. split; [exact Hc|reflexivity]. }
    simpl. rewrite Hstep. simpl.
    destruct (IH (pre ++ [(x, y)]) (<[(y, x) := c]> d)) as (d' & Hrun & Hd').
    + apply rendered_snoc; assumption.
    + intros x' y' Hin. apply Hl. right. assumption.
    + exists d'. rewrite <- app_assoc in Hd'. auto.
Qed.

Lemma render_list_inv (l : list (Z * Z)) :
  forall (d : gmap (Z * Z) Color) (m' : Mandlebrot),
    forM (fun m '(x, y) => computePixel m x y) l (setData m0 d) = Ok m' ->
    forall x y, (x, y) ∈ l ->
      allocated (image m0) x y = true /\ exists c, pixelColor m0 x y = Ok c.
Proof.
  induction l as [|[x y] l IH]; intros d m' Hrun x' y' Hin; [inversion Hin|].
  simpl in Hrun. apply bind_Ok in Hrun as (m1 & Hstep & Hrun).
  apply computePixel_Ok in Hstep as (Ha & c & Hc & ->).
  apply elem_of_cons in Hin as [[= -> ->]|Hin]; [eauto|].
  exact (IH _ _ Hrun x' y' Hin).
Qed.

(** *** The single-core render *)

Lemma elem_of_rasterPixels (x y : Z) : (x, y) ∈ rasterPixels <-> inRaster x y.
Proof. apply elem_of_areaPixels. Qed.

Lemma rendered_ext (l l' : list (Z * Z)) (d : gmap (Z * Z) Color) :
  (forall x y, (x, y) ∈ l <-> (x, y) ∈ l') -> rendered l d -> rendered l' d.
Proof.
  intros Hl Hd x y. destruct (Hd x y) as [Hin Hout]. split.
  - intros H. apply Hin, Hl, H.
  - intros H. apply Hout. intros H'. apply H, Hl, H'.
Qed.

Lemma setData_eta : setData m0 (data (image m0)) = m0.
Proof. destruct m0 as [[d w h] ? ? ? ? ? ? ? ? ? ?]. reflexivity. Qed.

(** Single core: the render succeeds exactly when every pixel of the raster
    has a colour, and then the raster holds these colours. *)
Lemma singleCore_render :
  (forall x y, inRaster x y -> exists c, pixelColor m0 x y = Ok c) ->
  exists d, computeSingleCore m0 = Ok (setData m0 d) /\ rendered rasterPixels d.
Proof.
  intros Hcol. unfold computeSingleCore. rewrite computeArea_pixels.
  destruct (render_list_Ok rasterPixels [] (data (image m0)) rendered_nil) as (d & Hrun & Hd).
  - intros x y Hin. apply elem_of_rasterPixels in Hin. split; [|auto].
    destruct Hin. apply in_raster_allocated; assumption.
  - rewrite setData_eta in Hrun. exists d. auto.
Qed.

Lemma singleCore_colours (m' : Mandlebrot) :
  computeSingleCore m0 = Ok m' ->
  forall x y, inRaster x y -> exists c, pixelColor m0 x y = Ok c.
Proof.
  unfold computeSingleCore. rewrite computeArea_pixels. intros Hrun x y Hin.
  eapply (render_list_inv rasterPixels (data (image m0))).
  - rewrite setData_eta. exact Hrun.
  - apply elem_of_rasterPixels. exact Hin.
Qed.

(** *** The invariant of the thread pool *)

Hypothesis width_fits : 0 <= width (image m0) <= MAX_BLOCK_WIDTH.

Lemma elem_of_blockArea (b x y : Z) :
  0 <= b < 100 -> (x, y) ∈ blockArea b -> inRaster x y.
Proof.
  intros Hb Hin. apply elem_of_areaPixels in Hin as [Hx Hy].
  split; [|lia]. apply (block_columns_in_raster _ b); [lia|exact Hb|exact Hx].
Qed.

Lemma elem_of_claimedPixels (n x y : Z) :
  (x, y) ∈ claimedPixels n -> inRaster x y.
Proof.
  unfold claimedPixels. intros Hin.
  apply list_elem_of_bind in Hin as (b & Hin & Hb).
  apply elem_of_seqZ in Hb. apply (elem_of_blockArea b); [lia|exact Hin].
Qed.

Lemma claimedPixels_all (n x y : Z) :
  100 <= n -> inRaster x y -> (x, y) ∈ claimedPixels n.
Proof.
  intros Hn [Hx Hy]. unfold claimedPixels.
  destruct (block_of_column _ _ Hx) as (b & Hb & Hcol).
  apply list_elem_of_bind. exists b. split.
  - apply elem_of_areaPixels. split; [exact Hcol|lia].
  - apply elem_of_seqZ. lia.
Qed.

Lemma claimedPixels_succ (n : Z) :
  0 <= n < 100 -> claimedPixels (n + 1) = claimedPixels n ++ blockArea n.
Proof.
  intros Hn. unfold claimedPixels.
  rewrite !Z.min_l by lia. rewrite seqZ_app by lia.
  rewrite bind_app. f_equal. change (seqZ (0 + n) 1) with [0 + n].
  rewrite bind_singleton. reflexivity.
Qed.

Lemma claimedPixels_done (n : Z) :
  100 <= n -> claimedPixels (n + 1) = claimedPixels n.
Proof. intros Hn. unfold claimedPixels. rewrite !Z.min_r by lia. reflexivity. Qed.

Lemma poolInv_spawn (nThreads : nat) : poolInv (spawn nThreads m0).
Proof.
  split; simpl.
  - exists (data (image m0)). destruct m0 as [[d w h] ? ? ? ? ? ? ? ? ? ?]. reflexivity.
  - lia.
  - intros i Hi. apply lookup_replicate in Hi as [[=] _].
  - assert (Hp : pending (replicate nThreads Claiming) = []).
    { induction nThreads as [|n IH]; [reflexivity|]. simpl. exact IH. }
    rewrite Hp. reflexivity.
  - apply rendered_nil.
Qed.

Lemma no_Finished_insert (ws : list worker) (i j : nat) (w : worker) (n : Z) :
  (forall k, ws !! k = Some Finished -> 100 <= n) ->
  w <> Finished ->
  <[i := w]> ws !! j = Some Finished -> 100 <= n.
Proof.
  intros Hws Hw Hj. destruct (decide (i = j)) as [->|Hne].
  - destruct (decide (j < length ws)%nat) as [Hlt|Hge].
    + rewrite list_lookup_insert_eq in Hj by assumption. congruence.
    + rewrite list_insert_ge in Hj by lia. eauto.
  - rewrite list_lookup_insert_ne in Hj by assumption. eauto.
Qed.

(** Every step of every thread keeps the invariant. *)
Lemma workerStep_inv (p p' : pool) (i : nat) :
  poolInv p -> workerStep p i = Ok p' -> poolInv p'.
Proof.
  destruct p as [eng next done ws tr].
  intros [[d Heng] Hnext Hfin Hpix Hdata]. simpl in *. subst eng.
  unfold workerStep. simpl.
  destruct (ws !! i) as [[|[|[x y] todo]|]|] eqn:Hi.
  - (* nextBlock++ *)
    destruct (Z.ltb_spec next 100) as [Hlt|Hge].
    + destruct (block_bounds_Ok (width (image m0)) next width_fits) as [Hl Hr];
        [lia|].
      rewrite Hl, Hr. simpl. intros [= <-].
      split; simpl; [eauto|lia| | |exact Hdata].
      * intros j Hj. exfalso.
        assert (100 <= next); [|lia].
        eapply no_Finished_insert; [exact Hfin| |exact Hj]. discriminate.
      * rewrite claimedPixels_succ by lia. fold (blockArea next).
        rewrite <- Hpix, <- app_assoc. apply Permutation_app_head.
        pose proof (pending_insert _ _ _ (Computing (blockArea next)) Hi) as H.
        simpl in H. rewrite app_nil_r in H. exact H.
    + intros [= <-]. split; simpl; [eauto|lia|intros; lia| |exact Hdata].
      rewrite claimedPixels_done by lia. rewrite <- Hpix.
      apply Permutation_app_head.
      pose proof (pending_insert _ _ _ Finished Hi) as H.
      simpl in H. rewrite !app_nil_r in H. exact H.
  - (* ++doneBlock *)
    intros [= <-]. split; simpl; [eauto|exact Hnext| | |exact Hdata].
    + intros j Hj. eapply no_Finished_insert; [exact Hfin| |exact Hj]. discriminate.
    + rewrite <- Hpix. apply Permutation_app_head.
      pose proof (pending_insert _ _ _ Claiming Hi) as H.
      simpl in H. rewrite !app_nil_r in H. exact H.
  - (* computePixel *)
    intros H. apply bind_Ok in H as (e & He & [= <-]).
    apply computePixel_Ok in He as (Ha & c & Hc & ->).
    rewrite pixelColor_setData in Hc.
    split; simpl.
    + eexists. reflexivity.
    + exact Hnext.
    + intros j Hj. eapply no_Finished_insert; [exact Hfin| |exact Hj]. discriminate.
    + rewrite <- Hpix, <- app_assoc. apply Permutation_app_head.
      pose proof (pending_insert _ _ _ (Computing todo) Hi) as H.
      simpl in H. apply (Permutation_app_inv_r todo). rewrite <- H.
      solve_Permutation.
    + apply rendered_snoc; assumption.
  - intros [= <-]. split; simpl; eauto.
  - intros [= <-]. split; simpl; eauto.
Qed.

Lemma run_inv (sched : list nat) :
  forall p p', poolInv p -> run sched p = Ok p' -> poolInv p'.
Proof.
  induction sched as [|i sched IH]; intros p p' Hp Hrun.
  - injection Hrun as <-. exact Hp.
  - simpl in Hrun. apply bind_Ok in Hrun as (p1 & Hstep & Hrun).
    eapply IH; [|exact Hrun]. eapply workerStep_inv; eauto.
Qed.

(** *** The end of a run *)

Lemma workerStep_length (p p' : pool) (i : nat) :
  workerStep p i = Ok p' -> length (workers p') = length (workers p).
Proof.
  unfold workerStep.
  destruct (workers p !! i) as [[|[|[x y] todo]|]|]; simpl.
  - destruct (nextBlock p <? 100).
    + intros H. apply bind_Ok in H as (l & _ & H). apply bind_Ok in H as (r & _ & H).
      injection H as <-. simpl. apply length_insert.
    + intros [= <-]. simpl. apply length_insert.
  - intros [= <-]. simpl. apply length_insert.
  - intros H. apply bind_Ok in H as (e & _ & [= <-]). simpl. apply length_insert.
  - intros [= <-]. reflexivity.
  - intros [= <-]. reflexivity.
Qed.

Lemma run_length (sched : list nat) :
  forall p p', run sched p = Ok p' -> length (workers p') = length (workers p).
Proof.
  induction sched as [|i sched IH]; intros p p' Hrun.
  - injection Hrun as <-. reflexivity.
  - simpl in Hrun. apply bind_Ok in Hrun as (p1 & Hstep & Hrun).
    rewrite (IH _ _ Hrun). eapply workerStep_length; eauto.
Qed.

Lemma joined_Finished (p : pool) (i : nat) (w : worker) :
  joined p = true -> workers p !! i = Some w -> w = Finished.
Proof.
  unfold joined. intros Hj Hi.
  assert (Hw : isFinished w = true).
  { apply (proj1 (List.forallb_forall _ _) Hj).
    apply list_elem_of_In, list_elem_of_lookup. eauto. }
  destruct w; try discriminate. reflexivity.
Qed.

Lemma joined_pending (p : pool) : joined p = true -> pending (workers p) = [].
Proof.
  unfold joined, pending. induction (workers p) as [|w ws IH]; [reflexivity|].
  simpl. intros H. apply andb_true_iff in H as [Hw Hws].
  destruct w; try discriminate. simpl. auto.
Qed.

(** Multi core: once every thread is joined, each pixel of the raster has been
    computed exactly once, and the raster holds the colours. *)
Lemma multiCore_render (nThreads : nat) (sched : list nat) (p : pool) :
  (1 <= nThreads)%nat ->
  run sched (spawn nThreads m0) = Ok p -> joined p = true ->
  trace p ≡ₚ claimedPixels 100 /\
  exists d, engine p = setData m0 d /\ rendered rasterPixels d.
Proof.
  intros Hn Hrun Hj.
  pose proof (run_inv _ _ _ (poolInv_spawn nThreads) Hrun) as [[d Heng] Hnext Hfin Hpix Hdata].
  assert (Hlen : length (workers p) = nThreads).
  { rewrite (run_length _ _ _ Hrun). simpl. apply length_replicate. }
  assert (Hdone : 100 <= nextBlock p).
  { destruct (lookup_lt_is_Some_2 (workers p) 0) as [w Hw]; [lia|].
    apply (Hfin 0%nat). rewrite Hw. f_equal. eapply joined_Finished; eauto. }
  rewrite (joined_pending _ Hj), app_nil_r in Hpix.
  assert (Hall : claimedPixels (nextBlock p) = claimedPixels 100).
  { unfold claimedPixels. rewrite Z.min_r by lia. reflexivity. }
  rewrite Hall in Hpix. split; [exact Hpix|].
  exists d. split; [exact Heng|].
  rewrite Heng in Hdata. simpl in Hdata.
  eapply rendered_ext; [|exact Hdata].
  intros x y. rewrite Hpix, elem_of_rasterPixels. split.
  - apply elem_of_claimedPixels.
  - apply claimedPixels_all. lia.
Qed.

(** *** Every schedule can be run, and run to the end *)

Hypothesis colours : forall x y, inRaster x y -> exists c, pixelColor m0 x y = Ok c.

Lemma elem_of_pending (ws : list worker) (i : nat) (todo : list (Z * Z)) (xy : Z * Z) :
  ws !! i = Some (Computing todo) -> xy ∈ todo -> xy ∈ pending ws.
Proof.
  intros Hi Hin. apply list_elem_of_bind. exists (Computing todo).
  split; [exact Hin|]. apply list_elem_of_lookup. eauto.
Qed.

Lemma blocksCost_succ (n : Z) :
  n < 100 -> blocksCost n = (S (S (length (blockArea n))) + blocksCost (n + 1))%nat.
Proof.
  intros Hn. unfold blocksCost. rewrite (seqZ_cons n) by lia. simpl.
  replace (Z.pred (100 - n)) with (100 - (n + 1)) by lia. reflexivity.
Qed.

Lemma blocksCost_done (n : Z) : 100 <= n -> blocksCost n = O /\ blocksCost (n + 1) = O.
Proof.
  intros Hn. unfold blocksCost, seqZ.
  rewrite !Z2Nat.nonpos by lia. auto.
Qed.

(** A thread that is not finished can take its step, and the step brings
    the pool closer to the end. *)
Lemma workerStep_progress (p : pool) (i : nat) (w : worker) :
  poolInv p -> workers p !! i = Some w -> w <> Finished ->
  exists p', workerStep p i = Ok p' /\ (poolMeasure p' < poolMeasure p)%nat.
Proof.
  destruct p as [eng next done ws tr].
  intros [[d Heng] Hnext Hfin Hpix Hdata] Hi Hw. simpl in *. subst eng.
  unfold workerStep, poolMeasure. simpl. rewrite Hi.
  destruct w as [|[|[x y] todo]|]; [| | |congruence].
  - destruct (Z.ltb_spec next 100) as [Hlt|Hge].
    + destruct (block_bounds_Ok (width (image m0)) next width_fits) as [Hl Hr];
        [lia|].
      rewrite Hl, Hr. simpl. eexists. split; [reflexivity|]. simpl.
      pose proof (poolCost_insert _ _ _
        (Computing (areaPixels (next * width (image m0) / 100) 0
                      ((next + 1) * width (image m0) / 100) (height (image m0)))) Hi) as Hc.
      rewrite (blocksCost_succ next) by lia. unfold blockArea. simpl in Hc. lia.
    + eexists. split; [reflexivity|]. simpl.
      pose proof (poolCost_insert _ _ _ Finished Hi) as Hc.
      destruct (blocksCost_done next Hge) as [-> ->]. simpl in Hc. lia.
  - eexists. split; [reflexivity|]. simpl.
    pose proof (poolCost_insert _ _ _ Claiming Hi) as Hc. simpl in Hc. lia.
  - assert (Hin : inRaster x y).
    { apply (elem_of_claimedPixels next). rewrite <- Hpix. apply elem_of_app. right.
      eapply elem_of_pending; [exact Hi|]. left. }
    destruct (colours x y Hin) as [c Hc].
    assert (Hstep : computePixel (setData m0 d) x y = Ok (store (setData m0 d) x y c)).
    { apply computePixel_Ok. split.
      - destruct Hin. apply in_raster_allocated; assumption.
      - exists c. split; [exact Hc|reflexivity]. }
    rewrite Hstep. simpl. eexists. split; [reflexivity|]. simpl.
    pose proof (poolCost_insert _ _ _ (Computing todo) Hi) as Hcost. simpl in Hcost. lia.
Qed.

Lemma workerStep_Ok (p : pool) (i : nat) :
  poolInv p -> exists p', workerStep p i = Ok p'.
Proof.
  intros Hp. destruct (workers p !! i) as [w|] eqn:Hi.
  - assert (Hw : w = Finished \/ w <> Finished)
      by (destruct w; [right|right|left]; congruence).
    destruct Hw as [->|Hw].
    + exists p. unfold workerStep. rewrite Hi. reflexivity.
    + destruct (workerStep_progress p i w Hp Hi Hw) as (p' & Hstep & _). eauto.
  - exists p. unfold workerStep. rewrite Hi. reflexivity.
Qed.

Lemma run_cons (i : nat) (sched : list nat) (p : pool) :
  run (i :: sched) p = (p1 ← workerStep p i; run sched p1).
Proof. reflexivity. Qed.

Lemma run_Ok (sched : list nat) :
  forall p, poolInv p -> exists p', run sched p = Ok p'.
Proof.
  induction sched as [|i sched IH]; intros p Hp; [exists p; reflexivity|].
  destruct (workerStep_Ok p i Hp) as [p1 Hstep].
  destruct (IH p1 (workerStep_inv _ _ _ Hp Hstep)) as [p' Hrun].
  exists p'. rewrite run_cons, Hstep. exact Hrun.
Qed.

Lemma not_joined (p : pool) :
  joined p = false ->
  exists i w, workers p !! i = Some w /\ w <> Finished.
Proof.
  unfold joined. induction (workers p) as [|w ws IH]; [discriminate|].
  simpl. destruct w; simpl.
  - intros _. exists O, Claiming. split; [reflexivity|discriminate].
  - intros _. exists O, (Computing todo). split; [reflexivity|discriminate].
  - intros H. destruct (IH H) as (i & w & Hi & Hw). exists (S i), w. auto.
Qed.

Lemma run_completes (n : nat) :
  forall p, (poolMeasure p <= n)%nat -> poolInv p ->
    exists sched p', run sched p = Ok p' /\ joined p' = true.
Proof.
  induction n as [|n IH]; intros p Hn Hp.
  - destruct (joined p) eqn:Hj; [exists [], p; auto|].
    destruct (not_joined p Hj) as (i & w & Hi & Hw).
    destruct (workerStep_progress p i w Hp Hi Hw) as (p1 & _ & Hlt). lia.
  - destruct (joined p) eqn:Hj; [exists [], p; auto|].
    destruct (not_joined p Hj) as (i & w & Hi & Hw).
    destruct (workerStep_progress p i w Hp Hi Hw) as (p1 & Hstep & Hlt).
    destruct (IH p1) as (sched & p' & Hrun & Hj'); [lia|eapply workerStep_inv; eauto|].
    exists (i :: sched), p'. rewrite run_cons, Hstep. auto.
Qed.

End Render.

Lemma computeMultiCore_Ok (nThreads : nat) (sched : list nat) (m m' : Mandlebrot) :
  computeMultiCore nThreads sched m = Some (Ok m') <->
  exists p, run sched (spawn nThreads m) = Ok p /\ joined p = true /\ engine p = m'.
Proof.
  unfold computeMultiCore. destruct (run sched (spawn nThreads m)) as [p| |e].
  - destruct (joined p) eqn:Hj; split.
    + intros [= <-]. eauto.
    + intros (p' & [= <-] & _ & <-). reflexivity.
    + discriminate.
    + intros (p' & [= <-] & Hj' & _). congruence.
  - split; [discriminate|]. intros (p' & [=] & _).
  - split; [discriminate|]. intros (p' & [=] & _).
Qed.

Lemma multiCore_sound (m m' : Mandlebrot) (nThreads : nat) (sched : list nat) :
  (1 <= nThreads)%nat -> 0 <= width (image m) <= MAX_BLOCK_WIDTH ->
  computeMultiCore nThreads sched m = Some (Ok m') ->
  computeSingleCore m = Ok m'.
Proof.
  intros Hn Hw Hmulti. apply computeMultiCore_Ok in Hmulti as (p & Hrun & Hj & <-).
  destruct (multiCore_render m Hw nThreads sched p Hn Hrun Hj) as (_ & d & Heng & Hd).
  assert (Hcol : forall x y, inRaster m x y -> exists c, pixelColor m x y = Ok c).
  { intros x y Hin. destruct (Hd x y) as [Hc _].
    apply elem_of_rasterPixels in Hin. destruct (Hc Hin) as (c & Hc' & _). eauto. }
  destruct (singleCore_render m Hcol) as (d' & Hsingle & Hd').
  rewrite Hsingle, Heng. do 2 f_equal.
  eapply rendered_unique; [|exact Hd'|exact Hd]. reflexivity.
Qed.

(** With at least one thread, and a raster no wider than [MAX_BLOCK_WIDTH] =
    21474836 columns, the multi-core render and the single-core render leave
    the same engine, hence the same colour in every pixel: whenever the
    threads are all joined the result is the one of [computeSingleCore]; and
    when [computeSingleCore] succeeds, every schedule of the threads runs
    without undefined behaviour and can be continued until all threads are
    joined.  In such a run every pixel of the 100 blocks is computed exactly
    once. *)
Lemma multiCore_equals_singleCore (m : Mandlebrot) (nThreads : nat) :
  (1 <= nThreads)%nat -> 0 <= width (image m) <= MAX_BLOCK_WIDTH ->
  (forall sched m',
     computeMultiCore nThreads sched m = Some (Ok m') ->
     computeSingleCore m = Ok m') /\
  (forall m',
     computeSingleCore m = Ok m' ->
     forall sched,
       (computeMultiCore nThreads sched m = None \/
        computeMultiCore nThreads sched m = Some (Ok m')) /\
       exists sched', computeMultiCore nThreads (sched ++ sched') m = Some (Ok m')) /\
  (forall sched p,
     run sched (spawn nThreads m) = Ok p -> joined p = true ->
     trace p ≡ₚ claimedPixels m 100).
Proof.
  intros Hn Hw. split; [|split].
  - intros sched m'. apply multiCore_sound; assumption.
  - intros m' Hsingle sched.
    pose proof (singleCore_colours m m' Hsingle) as Hcol.
    destruct (run_Ok m Hw Hcol sched _ (poolInv_spawn m Hw nThreads)) as [p Hrun].
    pose proof (run_inv m Hw _ _ _ (poolInv_spawn m Hw nThreads) Hrun) as Hp.
    split.
    + destruct (joined p) eqn:Hj.
      * right. assert (Hmulti : computeMultiCore nThreads sched m = Some (Ok (engine p))).
        { apply computeMultiCore_Ok. eauto. }
        pose proof (multiCore_sound _ _ _ _ Hn Hw Hmulti) as Hs.
        rewrite Hsingle in Hs. injection Hs as ->. exact Hmulti.
      * left. unfold computeMultiCore. rewrite Hrun, Hj. reflexivity.
    + destruct (run_completes m Hw Hcol (poolMeasure m p) p (le_n _) Hp)
        as (sched' & p' & Hrun' & Hj').
      exists sched'.
      assert (Hmulti : computeMultiCore nThreads (sched ++ sched') m = Some (Ok (engine p'))).
      { apply computeMultiCore_Ok. exists p'. split; [|auto].
        unfold run. rewrite forM_app. fold (run sched (spawn nThreads m)).
        rewrite Hrun. exact Hrun'. }
      pose proof (multiCore_sound _ _ _ _ Hn Hw Hmulti) as Hs.
      rewrite Hsingle in Hs. injection Hs as ->. exact Hmulti.
  - intros sched p Hrun Hj.
    exact (proj1 (multiCore_render m Hw nThreads sched p Hn Hrun Hj)).
Qed.

End Parallel.

(** ** The partition into blocks, and where it ends *)

(** C4: for every width up to [MAX_BLOCK_WIDTH] = 21474836 the bounds that
    [computeMultiCore] computes are [b * w / 100] and [(b + 1) * w / 100], and
    the 100 blocks partition the columns [0 .. w - 1]: every column is in a
    block, the blocks hold only columns of the raster, and no column is in
    two blocks.  From 21474837 on, which is still an [int], the product
    [(currentBlock + 1) * image.width] of block 99 overflows. *)
Theorem blocks_partition_until_overflow :
  (forall w, 0 <= w <= MAX_BLOCK_WIDTH ->
     (forall b, 0 <= b < 100 ->
        blockLeft w b = Ok (b * w / 100) /\
        blockRight w b = Ok ((b + 1) * w / 100)) /\
     (forall x, 0 <= x < w <->
        exists b, 0 <= b < 100 /\ b * w / 100 <= x < (b + 1) * w / 100) /\
     (forall x b b', 0 <= b < 100 -> 0 <= b' < 100 ->
        b * w / 100 <= x < (b + 1) * w / 100 ->
        b' * w / 100 <= x < (b' + 1) * w / 100 -> b = b')) /\
  (forall w, MAX_BLOCK_WIDTH < w <= INT_MAX ->
     in_int w = true /\ blockRight w 99 = Undefined).
Proof.
  split.
  - intros w Hw. split; [|split].
    + intros b Hb. apply block_bounds_Ok; assumption.
    + intros x. split; [apply block_of_column|].
      intros (b & Hb & Hx). apply (block_columns_in_raster w b x); [lia|assumption..].
    + intros x b b' Hb Hb'. apply block_unique; lia.
  - intros w Hw. rewrite MAX_BLOCK_WIDTH_value in Hw. unfold INT_MAX in Hw. split.
    + unfold in_int, INT_MIN, INT_MAX.
      apply andb_true_intro. split; apply Z.leb_le; lia.
    + assert (Hover : int ((99 + 1) * w) = Undefined).
      { unfold int, in_int, INT_MIN, INT_MAX.
        destruct (Z.leb_spec ((99 + 1) * w) (2 ^ 31 - 1)); [lia|].
        rewrite andb_false_r. reflexivity. }
      unfold blockRight. rewrite int_Ok by (unfold INT_MIN, INT_MAX; lia).
      change (Ok (99 + 1) ≫= _) with (n ← int ((99 + 1) * w); Ok (Z.quot n 100)).
      rewrite Hover. reflexivity.
Qed.

(** ** The index into the gradient *)

Section GradientIndex.

Variables log2 exp cos : float -> float.

(** When the exponential is so small that [1 - exp (-0.05 * fN)] rounds to
    1, the position [nC] is [stopCount - 1] itself, [iC] is the index of the
    last stop, and [colorList[iC+1]] is read past the end of the vector. *)
Lemma gradientColor_saturated (m : Mandlebrot) (z : complex) (iN : Z) :
  length (colorList m) = 2%nat \/ length (colorList m) = 5%nat ->
  (1 - exp (-0.05 * smoothed log2 m z iN))%float = 1%float ->
  gradientColor log2 exp cos m z iN = Undefined.
Proof.
  intros Hlen Hexp. unfold gradientColor, gradientPosition. rewrite Hexp.
  destruct (colorList m) as [|s0 [|s1 [|s2 [|s3 [|s4 [|s5 l]]]]]];
    simpl in Hlen; destruct Hlen as [Hlen|Hlen]; try discriminate Hlen;
    reflexivity.
Qed.

Lemma fold_push_back (stops : list Color) :
  forall m,
    fold_left push_back stops m
    = mkMandlebrot (image m) (colorList m ++ stops) (bodyColor m)
        (left m) (right m) (top m) (bottom m)
        (maxIterations m) (stopNorm m) (mSmooth m) (bSmooth m).
Proof.
  induction stops as [|s stops IH]; intros m; simpl.
  - rewrite app_nil_r. destruct m; reflexivity.
  - rewrite IH. simpl. now rewrite <- app_assoc.
Qed.

(** C5 fails on the code.  Take the engine of [main],
    [Mandlebrot (500, -2.7, 1.25, 1.7, -1.25)], with a gradient of two or of
    five stops and [maxIterations] raised to 1000.  The orbit of pixel
    [(975, 623)] leaves the threshold after 788 steps.  The smoothed count is
    then near 788, and whenever [1 - exp (-0.05 * fN)] is 1 in [double], as it
    is for an exponential below [2 ^ -54], [computePixel] indexes the gradient
    past its last stop: its behaviour is undefined. *)
Theorem gradient_index_past_last_stop (m : Mandlebrot) (stops : list Color) :
  Mandlebrot_new log2 500 (-2.7) 1.25 1.7 (-1.25) = Ok m ->
  length stops = 2%nat \/ length stops = 5%nat ->
  let e := set_maxIterations (fold_left push_back stops m) 1000 in
  exists z : complex,
    escape e (pixelPoint e 975 623) = Ok (z, 788) /\
    ((1 - exp (-0.05 * smoothed log2 e z 788))%float = 1%float ->
     computePixel log2 exp cos e 975 623 = Undefined).
Proof.
  intros Hnew Hlen e.
  assert (He : exists ms bs,
             e = mkMandlebrot (mkImage ∅ 2200 1250) stops (mkColor 0 0 0)
                   (-2.7) 1.7 1.25 (-1.25) 1000 400 ms bs).
  { subst e. rewrite fold_push_back. vm_compute in Hnew. injection Hnew as <-.
    unfold set_maxIterations. simpl. eauto. }
  destruct He as (ms & bs & He). clearbody e. subst e.
  match goal with
  | |- exists z, ?E = Ok (z, 788) /\ _ =>
      let r := eval vm_compute in E in
      match r with Ok (?z0, _) => exists z0 end
  end.
  split; [vm_compute; reflexivity|].
  intros Hexp. unfold computePixel.
  match goal with
  | |- context [escape ?m ?c] =>
      let r := eval vm_compute in (escape m c) in
      replace (escape m c) with r by (vm_compute; reflexivity)
  end.
  simpl.
  match type of Hexp with
  | context [smoothed log2 ?e ?z ?n] =>
      rewrite (gradientColor_saturated e z n Hlen Hexp)
  end.
  reflexivity.
Qed.

End GradientIndex.

Lemma gradient_index_past_last_stop_witness :
  exists (m : Mandlebrot) (z : complex),
    Mandlebrot_new (fun d => d) 500 (-2.7) 1.25 1.7 (-1.25) = Ok m /\
    escape (set_maxIterations (fold_left push_back mainGradient m) 1000)
      (pixelPoint (set_maxIterations (fold_left push_back mainGradient m) 1000) 975 623)
    = Ok (z, 788) /\
    computePixel (fun d => d) (fun _ => 0%float) (fun d => d)
      (set_maxIterations (fold_left push_back mainGradient m) 1000) 975 623
    = Undefined.
Proof.
  eexists.
  destruct (gradient_index_past_last_stop (fun d => d) (fun _ => 0%float) (fun d => d)
              _ mainGradient eq_refl (or_intror eq_refl)) as (z & Hesc & Hundef).
  exists z. split; [reflexivity|]. split; [exact Hesc|].
  apply Hundef. reflexivity.
Defined.

(** ** The blend at the stops

    In [double], with the weight 1 the blend of two bytes is the first byte
    and with the weight 0 it is the second, also after the cast to
    [unsigned char]: at a stop the pixel gets the colour of the stop. *)

Lemma isPositiveZero_eq (d : float) : isPositiveZero d = true -> d = 0%float.
Proof.
  unfold isPositiveZero. intros H. apply Prim2SF_inj.
  destruct (Prim2SF d) as [[|]| | |]; try discriminate. reflexivity.
Qed.

Lemma bytes_checked :
  forallb (fun c => byteKept c && byteDropped c) (seqZ 0 256) = true.
Proof. vm_compute. reflexivity. Qed.

Lemma blend_at_the_stops (c1 c2 : Z) :
  0 <= c1 <= UCHAR_MAX -> 0 <= c2 <= UCHAR_MAX ->
  uchar_of_double (blend c1 c2 1) = Ok c1 /\
  uchar_of_double (blend c1 c2 0) = Ok c2.
Proof.
  unfold UCHAR_MAX. intros H1 H2.
  assert (Hbyte : forall c, 0 <= c <= 255 -> byteKept c = true /\ byteDropped c = true).
  { intros c Hc. pose proof bytes_checked as Hall.
    rewrite List.forallb_forall in Hall.
    apply andb_true_iff. apply Hall. apply list_elem_of_In, elem_of_seqZ. lia. }
  destruct (Hbyte c1 H1) as [Hk1 Hd1], (Hbyte c2 H2) as [Hk2 Hd2].
  apply andb_true_iff in Hd1 as [_ Hd1], Hd2 as [Hd2 _].
  apply isPositiveZero_eq in Hd1, Hd2.
  unfold blend. rewrite Hd1, Hd2.
  unfold byteKept in Hk1, Hk2.
  destruct (uchar_of_double (double_of_Z c1 * 1 + 0)) as [r1| |]; try discriminate.
  destruct (uchar_of_double (0 + double_of_Z c1 * (1 - 0))); try discriminate.
  destruct (uchar_of_double (double_of_Z c2 * 1 + 0)); try discriminate.
  destruct (uchar_of_double (0 + double_of_Z c2 * (1 - 0))) as [r0| |]; try discriminate.
  apply andb_true_iff in Hk1 as [Hr1 _], Hk2 as [_ Hr0].
  apply Z.eqb_eq in Hr1, Hr0. subst. auto.
Qed.

(** * Further properties of the engine *)

(** ** What a call of [computePixel] does *)

Section OnePixel.

Variables log2 exp cos : float -> float.

#[local] Abbreviation pixelColor := (pixelColor log2 exp cos).
#[local] Abbreviation gradientColor := (gradientColor log2 exp cos).
#[local] Abbreviation computePixel := (computePixel log2 exp cos).
#[local] Abbreviation computeArea := (computeArea log2 exp cos).
#[local] Abbreviation computeSingleCore := (computeSingleCore log2 exp cos).
#[local] Abbreviation rendered := (rendered log2 exp cos).

Lemma escapeLoop_not_Raised (m : Mandlebrot) (c : complex) (e : exn) (fuel : nat) :
  forall z iN, escapeLoop m fuel c z iN <> Some (Raised e).
Proof.
  induction fuel as [|fuel IH]; intros z iN; simpl; [discriminate|].
  destruct (norm z <? stopNorm m)%float; [|discriminate].
  destruct (int (iN + 1)); try discriminate.
  destruct (iN <? maxIterations m); [apply IH|discriminate].
Qed.

Lemma escape_not_Raised (m : Mandlebrot) (c : complex) (e : exn) :
  escape m c <> Raised e.
Proof.
  unfold escape. pose proof (escapeLoop_not_Raised m c e (escapeFuel m) c 0) as H.
  destruct (escapeLoop m (escapeFuel m) c c 0) as [r|]; [congruence|discriminate].
Qed.

Lemma convert_not_Raised (lo hi : Z) (d : float) (e : exn) :
  convert lo hi d <> Raised e.
Proof.
  unfold convert. destruct (truncZ d); [|discriminate].
  destruct ((lo <=? z) && (z <=? hi)); discriminate.
Qed.

Lemma at_not_Raised (l : list Color) (i : Z) (e : exn) : at_ l i <> Raised e.
Proof.
  unfold at_. destruct (i <? 0); [discriminate|].
  destruct (l !! Z.to_nat i); discriminate.
Qed.

Lemma blendColor_not_Raised (c1 c2 : Color) (mix : float) (e : exn) :
  blendColor c1 c2 mix <> Raised e.
Proof.
  unfold blendColor.
  destruct (uchar_of_double (blend (red c1) (red c2) mix)) as [r| |e1] eqn:Hr; simpl;
    [|discriminate|exfalso; exact (convert_not_Raised _ _ _ _ Hr)].
  destruct (uchar_of_double (blend (green c1) (green c2) mix)) as [g| |e1] eqn:Hg; simpl;
    [|discriminate|exfalso; exact (convert_not_Raised _ _ _ _ Hg)].
  destruct (uchar_of_double (blend (blue c1) (blue c2) mix)) as [b| |e1] eqn:Hb; simpl;
    [discriminate|discriminate|exfalso; exact (convert_not_Raised _ _ _ _ Hb)].
Qed.

Lemma gradientColor_not_Raised (m : Mandlebrot) (z : complex) (iN : Z) (e : exn) :
  gradientColor m z iN <> Raised e.
Proof.
  unfold gradientColor.
  destruct (unsigned_of_double _) as [iC| |e1] eqn:HiC; simpl;
    [|discriminate|exfalso; exact (convert_not_Raised _ _ _ _ HiC)].
  destruct (at_ (colorList m) iC) as [c1| |e1] eqn:H1; simpl;
    [|discriminate|exfalso; exact (at_not_Raised _ _ _ H1)].
  destruct (at_ (colorList m) (unsigned (iC + 1))) as [c2| |e1] eqn:H2; simpl;
    [|discriminate|exfalso; exact (at_not_Raised _ _ _ H2)].
  apply blendColor_not_Raised.
Qed.

Lemma pixelColor_not_Raised (m : Mandlebrot) (x y : Z) (e : exn) :
  pixelColor m x y <> Raised e.
Proof.
  unfold pixelColor.
  destruct (escape m (pixelPoint m x y)) as [[z iN]| |e1] eqn:He; simpl;
    [|discriminate|exfalso; exact (escape_not_Raised _ _ _ He)].
  destruct (maxIterations m <=? iN); [discriminate|apply gradientColor_not_Raised].
Qed.

(** [computePixel] in terms of the colour of the pixel. *)
Lemma computePixel_pixelColor (m : Mandlebrot) (x y : Z) :
  computePixel m x y
  = match pixelColor m x y with
    | Ok c => if allocated (image m) x y then Ok (store m x y c) else Undefined
    | _ => Undefined
    end.
Proof.
  pose proof (pixelColor_not_Raised m x y) as Hnr. revert Hnr.
  unfold computePixel, pixelColor.
  destruct (escape m (pixelPoint m x y)) as [[z iN]| |e1]; simpl; intros Hnr;
    [|reflexivity|exfalso; exact (Hnr e1 eq_refl)].
  destruct (if maxIterations m <=? iN then _ else _) as [c| |e1]; simpl;
    destruct (allocated (image m) x y); try reflexivity;
    exfalso; exact (Hnr e1 eq_refl).
Qed.

Lemma forM_pixels_not_Raised (l : list (Z * Z)) (e : exn) :
  forall m, forM (fun m '(x, y) => computePixel m x y) l m <> Raised e.
Proof.
  induction l as [|[x y] l IH]; intros m; simpl; [discriminate|].
  rewrite computePixel_pixelColor.
  destruct (pixelColor m x y) as [c| |e1]; simpl; try discriminate.
  destruct (allocated (image m) x y); simpl; [apply IH|discriminate].
Qed.

(** A loop of [computePixel] over a list of pixels depends on the pixels in
    the list only, not on their order or on repetitions. *)
Lemma forM_pixels_same (l l' : list (Z * Z)) (m : Mandlebrot) :
  (forall x y, (x, y) ∈ l <-> (x, y) ∈ l') ->
  forM (fun m '(x, y) => computePixel m x y) l m
  = forM (fun m '(x, y) => computePixel m x y) l' m.
Proof.
  assert (Hdir : forall l l' m',
            (forall x y, (x, y) ∈ l <-> (x, y) ∈ l') ->
            forM (fun m '(x, y) => computePixel m x y) l m = Ok m' ->
            forM (fun m '(x, y) => computePixel m x y) l' m = Ok m').
  { clear l l'. intros l l' m' Hl Hrun.
    rewrite <- (setData_eta m) in Hrun.
    pose proof (render_list_inv log2 exp cos m l _ _ Hrun) as Hcol.
    destruct (render_list_Ok log2 exp cos m l [] _ (rendered_nil log2 exp cos m) Hcol)
      as (d & Hrun1 & Hd).
    destruct (render_list_Ok log2 exp cos m l' [] _ (rendered_nil log2 exp cos m))
      as (d' & Hrun2 & Hd').
    { intros x y Hin. apply Hcol, Hl, Hin. }
    rewrite Hrun in Hrun1. injection Hrun1 as ->.
    rewrite setData_eta in Hrun2. rewrite Hrun2. do 2 f_equal.
    symmetry. exact (rendered_unique log2 exp cos m _ _ _ _ Hl Hd Hd'). }
  intros Hl.
  destruct (forM _ l m) as [m1| |e] eqn:H1.
  - symmetry. exact (Hdir l l' m1 Hl H1).
  - destruct (forM _ l' m) as [m2| |e] eqn:H2; [|reflexivity|].
    + assert (Hl' : forall x y, (x, y) ∈ l' <-> (x, y) ∈ l) by (intros; symmetry; apply Hl).
      rewrite (Hdir l' l m2 Hl' H2) in H1. discriminate.
    + exfalso. exact (forM_pixels_not_Raised _ _ _ H2).
  - exfalso. exact (forM_pixels_not_Raised _ _ _ H1).
Qed.

(** Where a loop of [computePixel] goes wrong. *)
Lemma forM_pixels_Undefined (l : list (Z * Z)) :
  forall m,
    forM (fun m '(x, y) => computePixel m x y) l m = Undefined <->
    exists x y, (x, y) ∈ l /\
      (allocated (image m) x y = false \/ pixelColor m x y = Undefined).
Proof.
  induction l as [|[x y] l IH]; intros m; simpl.
  - split; [discriminate|]. intros (x & y & Hin & _). inversion Hin.
  - rewrite computePixel_pixelColor.
    destruct (pixelColor m x y) as [c| |e] eqn:Hc; simpl.
    + destruct (allocated (image m) x y) eqn:Ha; simpl.
      * rewrite IH. unfold store. split.
        -- intros (x' & y' & Hin & Hbad). exists x', y'. split; [right; exact Hin|exact Hbad].
        -- intros (x' & y' & Hin & Hbad). exists x', y'. split; [|exact Hbad].
           apply elem_of_cons in Hin as [[= -> ->]|Hin]; [|exact Hin].
           destruct Hbad as [Hbad|Hbad]; congruence.
      * split; [|reflexivity]. intros _. exists x, y. split; [left|auto].
    + split; [|reflexivity]. intros _. exists x, y. split; [left|auto].
    + exfalso. exact (pixelColor_not_Raised _ _ _ _ Hc).
Qed.

(** X1: a call of [computePixel] that returns has written the colour of the
    pixel to [image.data[y][x]], which lies in the allocation, and has
    changed nothing else: every other entry of the raster and every
    parameter of the engine is as before, and so is the colour that a later
    call computes for any pixel. *)
Theorem computePixel_writes_one_pixel (m m' : Mandlebrot) (x y : Z) :
  computePixel m x y = Ok m' ->
  allocated (image m) x y = true /\
  (exists c, pixelColor m x y = Ok c /\ data (image m') !! (y, x) = Some c) /\
  (forall x' y', (x', y') <> (x, y) ->
     data (image m') !! (y', x') = data (image m) !! (y', x')) /\
  setData m' (data (image m)) = m /\
  (forall x' y', pixelColor m' x' y' = pixelColor m x' y').
Proof.
  intros H. apply computePixel_Ok in H as (Ha & c & Hc & ->).
  split; [exact Ha|]. split; [|split; [|split]].
  - exists c. split; [exact Hc|]. simpl. apply lookup_insert_eq.
  - intros x' y' Hne. simpl. apply lookup_insert_ne. congruence.
  - clear. destruct m as [[d w h] ? ? ? ? ? ? ? ? ? ?]. reflexivity.
  - intros x' y'. reflexivity.
Qed.

Lemma run_not_Raised (sched : list nat) (e : exn) :
  forall p, run log2 exp cos sched p <> Raised e.
Proof.
  induction sched as [|i sched IH]; intros p; [discriminate|].
  assert (Hstep : workerStep log2 exp cos p i <> Raised e).
  { unfold workerStep.
    destruct (workers p !! i) as [[|[|[x y] todo]|]|]; try discriminate.
    - destruct (nextBlock p <? 100); [|discriminate].
      unfold blockLeft, blockRight, int.
      repeat (match goal with |- context [if ?b then _ else _] => destruct b end;
              simpl; try discriminate).
    - rewrite computePixel_pixelColor.
      destruct (pixelColor (engine p) x y); simpl; try discriminate.
      destruct (allocated (image (engine p)) x y); discriminate. }
  rewrite (run_cons log2 exp cos).
  destruct (workerStep log2 exp cos p i) as [p'| |e']; simpl;
    [apply IH|discriminate|congruence].
Qed.

Lemma areaPixels_nil (l t r b : Z) : r <= l \/ b <= t -> areaPixels l t r b = [].
Proof.
  intros H. destruct (areaPixels l t r b) as [|[x y] ps] eqn:Hps; [reflexivity|].
  assert (Hin : (x, y) ∈ areaPixels l t r b) by (rewrite Hps; left).
  apply elem_of_areaPixels in Hin. lia.
Qed.

(** X3: an area without columns or without rows is rendered by doing
    nothing; the bounds are not looked at otherwise, so they may lie
    anywhere. *)
Theorem computeArea_empty_area (m : Mandlebrot) (l t r b : Z) :
  r <= l \/ b <= t -> computeArea m l t r b = Ok m.
Proof.
  intros H. rewrite computeArea_pixels, (areaPixels_nil _ _ _ _ H). reflexivity.
Qed.

(** X4: an area can be rendered in two parts, split at a column or at a
    row: the outcome is the one of rendering the whole area.  This is what
    [computeMultiCore] relies on when it cuts the raster into blocks of
    columns. *)
Theorem computeArea_split (m : Mandlebrot) (l t r b midX midY : Z) :
  l <= midX <= r -> t <= midY <= b ->
  computeArea m l t r b
  = (m1 ← computeArea m l t midX b; computeArea m1 midX t r b) /\
  computeArea m l t r b
  = (m1 ← computeArea m l t r midY; computeArea m1 l midY r b).
Proof.
  intros Hx Hy. split.
  - transitivity (forM (fun m '(x, y) => computePixel m x y)
                    (areaPixels l t midX b ++ areaPixels midX t r b) m).
    + rewrite computeArea_pixels. apply forM_pixels_same. intros x y.
      rewrite elem_of_app, !elem_of_areaPixels. lia.
    + rewrite forM_app, <- computeArea_pixels.
      destruct (computeArea m l t midX b); simpl; try reflexivity.
      symmetry. apply computeArea_pixels.
  - transitivity (forM (fun m '(x, y) => computePixel m x y)
                    (areaPixels l t r midY ++ areaPixels l midY r b) m).
    + rewrite computeArea_pixels. apply forM_pixels_same. intros x y.
      rewrite elem_of_app, !elem_of_areaPixels. lia.
    + rewrite forM_app, <- computeArea_pixels.
      destruct (computeArea m l t r midY); simpl; try reflexivity.
      symmetry. apply computeArea_pixels.
Qed.

(** X5: two areas, disjoint or not, can be rendered in either order. *)
Theorem computeArea_commute (m : Mandlebrot) (l t r b l' t' r' b' : Z) :
  (m1 ← computeArea m l t r b; computeArea m1 l' t' r' b')
  = (m1 ← computeArea m l' t' r' b'; computeArea m1 l t r b).
Proof.
  transitivity (forM (fun m '(x, y) => computePixel m x y)
                  (areaPixels l t r b ++ areaPixels l' t' r' b') m).
  - rewrite forM_app, <- computeArea_pixels.
    destruct (computeArea m l t r b); simpl; try reflexivity.
    apply computeArea_pixels.
  - rewrite (forM_pixels_same _ (areaPixels l' t' r' b' ++ areaPixels l t r b)).
    + rewrite forM_app, <- computeArea_pixels.
      destruct (computeArea m l' t' r' b'); simpl; try reflexivity.
      symmetry. apply computeArea_pixels.
    + intros x y. rewrite !elem_of_app. tauto.
Qed.

(** X6: a render that succeeded can be repeated: rendering the raster
    again, or any area of it, leaves the engine as it is. *)
Theorem render_again (m m' : Mandlebrot) :
  computeSingleCore m = Ok m' ->
  computeSingleCore m' = Ok m' /\
  (forall l t r b,
     0 <= l -> r <= width (image m) -> 0 <= t -> b <= height (image m) ->
     computeArea m' l t r b = Ok m').
Proof.
  intros Hrun.
  assert (Hdim : width (image m') = width (image m) /\ height (image m') = height (image m)).
  { destruct (singleCore_render log2 exp cos m (singleCore_colours log2 exp cos m m' Hrun))
      as (d & Hd & _).
    rewrite Hrun in Hd. injection Hd as ->. split; reflexivity. }
  assert (Harea : forall l t r b,
            0 <= l -> r <= width (image m) -> 0 <= t -> b <= height (image m) ->
            computeArea m' l t r b = Ok m').
  { intros l t r b Hl Hr Ht Hb.
    unfold computeSingleCore in Hrun. rewrite computeArea_pixels in Hrun.
    assert (Hboth : forM (fun m '(x, y) => computePixel m x y)
                      (areaPixels 0 0 (width (image m)) (height (image m))
                       ++ areaPixels l t r b) m = Ok m').
    { rewrite <- Hrun. apply forM_pixels_same. intros x y.
      rewrite elem_of_app, !elem_of_areaPixels. lia. }
    rewrite forM_app, Hrun in Hboth. rewrite computeArea_pixels. exact Hboth. }
  split; [|exact Harea].
  unfold computeSingleCore. destruct Hdim as [-> ->]. apply Harea; lia.
Qed.

(** X7: what a successful [computeSingleCore] leaves behind.  Every pixel
    of the raster holds the colour computed for it from the parameters of
    the engine; the entries outside the raster and the parameters are as
    before. *)
Theorem computeSingleCore_result (m m' : Mandlebrot) :
  computeSingleCore m = Ok m' ->
  (forall x y, 0 <= x < width (image m) -> 0 <= y < height (image m) ->
     exists c, pixelColor m x y = Ok c /\ data (image m') !! (y, x) = Some c) /\
  (forall x y, ~ (0 <= x < width (image m) /\ 0 <= y < height (image m)) ->
     data (image m') !! (y, x) = data (image m) !! (y, x)) /\
  setData m' (data (image m)) = m.
Proof.
  intros Hrun.
  destruct (singleCore_render log2 exp cos m (singleCore_colours log2 exp cos m m' Hrun))
    as (d & Hd & Hren).
  rewrite Hrun in Hd. injection Hd as ->. split; [|split].
  - intros x y Hx Hy. apply (proj1 (Hren x y)).
    apply elem_of_rasterPixels. split; assumption.
  - intros x y Hout. simpl. apply (proj2 (Hren x y)).
    intros Hin. apply Hout. apply elem_of_rasterPixels in Hin. exact Hin.
  - clear. destruct m as [[d0 w h] ? ? ? ? ? ? ? ? ? ?]. reflexivity.
Qed.

(** X8: when [computeSingleCore] succeeds and when it does not.  It
    returns exactly when every pixel of the raster has a colour, and it is
    undefined exactly when the colour of some pixel of the raster is. *)
Theorem computeSingleCore_outcome (m : Mandlebrot) :
  ((exists m', computeSingleCore m = Ok m') <->
   (forall x y, 0 <= x < width (image m) -> 0 <= y < height (image m) ->
      exists c, pixelColor m x y = Ok c)) /\
  (computeSingleCore m = Undefined <->
   (exists x y, 0 <= x < width (image m) /\ 0 <= y < height (image m) /\
      pixelColor m x y = Undefined)).
Proof.
  split; split.
  - intros [m' Hrun] x y Hx Hy.
    apply (singleCore_colours log2 exp cos m m' Hrun). split; assumption.
  - intros Hcol.
    destruct (singleCore_render log2 exp cos m) as (d & Hd & _); [|eauto].
    intros x y [Hx Hy]. auto.
  - unfold computeSingleCore. rewrite computeArea_pixels, forM_pixels_Undefined.
    intros (x & y & Hin & Hbad). apply elem_of_areaPixels in Hin as [Hx Hy].
    exists x, y. split; [lia|]. split; [lia|].
    destruct Hbad as [Hbad|Hbad]; [|exact Hbad].
    rewrite in_raster_allocated in Hbad by lia. discriminate.
  - intros (x & y & Hx & Hy & Hbad).
    unfold computeSingleCore. rewrite computeArea_pixels, forM_pixels_Undefined.
    exists x, y. split; [|right; exact Hbad].
    apply elem_of_areaPixels. lia.
Qed.

(** X9: [computeArea] does not check its bounds against the raster.  A
    call that returns for an area with at least one pixel has stayed inside
    the allocation, whose rows hold [width * 3] colours: the rows of the
    area are rows of the raster, and its columns lie below three times the
    width. *)
Theorem computeArea_inside_allocation (m m' : Mandlebrot) (l t r b : Z) :
  computeArea m l t r b = Ok m' -> l < r -> t < b ->
  0 <= l /\ r <= width (image m) * 3 /\ 0 <= t /\ b <= height (image m).
Proof.
  intros Hrun Hx Hy. rewrite computeArea_pixels in Hrun.
  rewrite <- (setData_eta m) in Hrun.
  pose proof (render_list_inv log2 exp cos m _ _ _ Hrun) as Hall.
  destruct (Hall l t) as [H1 _]; [apply elem_of_areaPixels; lia|].
  destruct (Hall (r - 1) (b - 1)) as [H2 _]; [apply elem_of_areaPixels; lia|].
  unfold allocated in H1, H2.
  repeat (apply andb_true_iff in H1 as [H1 ?]).
  repeat (apply andb_true_iff in H2 as [H2 ?]).
  lia.
Qed.

End OnePixel.

Lemma computePixel_writes_one_pixel_witness :
  allocated (image originEngine) 0 0 = true /\
  (exists c,
     pixelColor (fun d => d) (fun d => d) (fun d => d) originEngine 0 0 = Ok c /\
     data (image (store originEngine 0 0 (mkColor 0 0 0))) !! (0, 0) = Some c) /\
  (forall x' y', (x', y') <> (0, 0) ->
     data (image (store originEngine 0 0 (mkColor 0 0 0))) !! (y', x')
     = data (image originEngine) !! (y', x')) /\
  setData (store originEngine 0 0 (mkColor 0 0 0)) (data (image originEngine))
  = originEngine /\
  (forall x' y',
     pixelColor (fun d => d) (fun d => d) (fun d => d)
       (store originEngine 0 0 (mkColor 0 0 0)) x' y'
     = pixelColor (fun d => d) (fun d => d) (fun d => d) originEngine x' y').
Proof.
  apply (computePixel_writes_one_pixel (fun d => d) (fun d => d) (fun d => d)
           originEngine _ 0 0).
  vm_compute. reflexivity.
Defined.

Lemma computeArea_empty_area_witness :
  computeArea (fun d => d) (fun d => d) (fun d => d) originEngine 5 (-2) 5 9
  = Ok originEngine.
Proof.
  apply (computeArea_empty_area (fun d => d) (fun d => d) (fun d => d)
           originEngine 5 (-2) 5 9).
  left. lia.
Defined.

Lemma computeArea_split_witness :
  computeArea (fun d => d) (fun d => d) (fun d => d) originEngine 0 0 1 1
  = (m1 ← computeArea (fun d => d) (fun d => d) (fun d => d) originEngine 0 0 1 1;
     computeArea (fun d => d) (fun d => d) (fun d => d) m1 1 0 1 1) /\
  computeArea (fun d => d) (fun d => d) (fun d => d) originEngine 0 0 1 1
  = (m1 ← computeArea (fun d => d) (fun d => d) (fun d => d) originEngine 0 0 1 0;
     computeArea (fun d => d) (fun d => d) (fun d => d) m1 0 0 1 1).
Proof.
  apply (computeArea_split (fun d => d) (fun d => d) (fun d => d)
           originEngine 0 0 1 1 1 0); lia.
Defined.

Lemma render_again_witness :
  computeSingleCore (fun d => d) (fun d => d) (fun d => d)
    (store originEngine 0 0 (mkColor 0 0 0))
  = Ok (store originEngine 0 0 (mkColor 0 0 0)) /\
  (forall l t r b,
     0 <= l -> r <= width (image originEngine) ->
     0 <= t -> b <= height (image originEngine) ->
     computeArea (fun d => d) (fun d => d) (fun d => d)
       (store originEngine 0 0 (mkColor 0 0 0)) l t r b
     = Ok (store originEngine 0 0 (mkColor 0 0 0))).
Proof.
  apply (render_again (fun d => d) (fun d => d) (fun d => d) originEngine).
  vm_compute. reflexivity.
Defined.

Lemma computeSingleCore_result_witness :
  (forall x y, 0 <= x < width (image originEngine) ->
     0 <= y < height (image originEngine) ->
     exists c,
       pixelColor (fun d => d) (fun d => d) (fun d => d) originEngine x y = Ok c /\
       data (image (store originEngine 0 0 (mkColor 0 0 0))) !! (y, x) = Some c) /\
  (forall x y,
     ~ (0 <= x < width (image originEngine) /\ 0 <= y < height (image originEngine)) ->
     data (image (store originEngine 0 0 (mkColor 0 0 0))) !! (y, x)
     = data (image originEngine) !! (y, x)) /\
  setData (store originEngine 0 0 (mkColor 0 0 0)) (data (image originEngine))
  = originEngine.
Proof.
  apply (computeSingleCore_result (fun d => d) (fun d => d) (fun d => d) originEngine).
  vm_compute. reflexivity.
Defined.

Lemma computeArea_inside_allocation_witness :
  0 <= 0 /\ 1 <= width (image originEngine) * 3 /\
  0 <= 0 /\ 1 <= height (image originEngine).
Proof.
  apply (computeArea_inside_allocation (fun d => d) (fun d => d) (fun d => d)
           originEngine (store originEngine 0 0 (mkColor 0 0 0)) 0 0 1 1);
    [vm_compute; reflexivity|lia|lia].
Defined.

(** ** The iteration budget *)

Section Budget.

Variables log2 exp cos : float -> float.

#[local] Abbreviation pixelColor := (pixelColor log2 exp cos).
#[local] Abbreviation gradientColor := (gradientColor log2 exp cos).
#[local] Abbreviation computePixel := (computePixel log2 exp cos).
#[local] Abbreviation computeSingleCore := (computeSingleCore log2 exp cos).

(** X10: with [maxIterations <= 0] the loop of [computePixel] applies no
    step and every pixel takes the first branch: whatever the gradient and
    the other parameters are, the render succeeds and fills the raster with
    [bodyColor]. *)
Theorem no_iterations_all_bodyColor (m : Mandlebrot) :
  maxIterations m <= 0 ->
  (forall x y, pixelColor m x y = Ok (bodyColor m)) /\
  exists m',
    computeSingleCore m = Ok m' /\
    forall x y, 0 <= x < width (image m) -> 0 <= y < height (image m) ->
      data (image m') !! (y, x) = Some (bodyColor m).
Proof.
  intros Hmax.
  assert (Hbody : forall x y, pixelColor m x y = Ok (bodyColor m)).
  { intros x y. unfold pixelColor.
    destruct (escape_exit m (pixelPoint m x y)) as (k & _ & Hk & Hexit);
      [unfold INT_MAX; lia|].
    destruct Hexit as [[_ He]|(_ & _ & He)]; rewrite He; simpl.
    - destruct (Z.leb_spec (maxIterations m) (Z.of_nat k)); [reflexivity|lia].
    - destruct (Z.leb_spec (maxIterations m) (Z.of_nat k + 1)); [reflexivity|lia]. }
  split; [exact Hbody|].
  destruct (singleCore_render log2 exp cos m) as (d & Hd & Hren).
  { intros x y _. eauto. }
  exists (setData m d). split; [exact Hd|].
  intros x y Hx Hy. destruct (proj1 (Hren x y)) as (c & Hc & Hlook).
  { apply elem_of_rasterPixels. split; assumption. }
  rewrite Hbody in Hc. injection Hc as <-. exact Hlook.
Qed.

(** X11: raising [maxIterations] does not change a pixel that had left the
    threshold within the old budget: the loop ends on the same [z] with the
    same count, and the pixel gets the same colour.  Only the pixels painted
    with [bodyColor] can change. *)
Theorem more_iterations_keep_escaped (m : Mandlebrot) (n x y : Z) (z : complex) (iN : Z) :
  escape m (pixelPoint m x y) = Ok (z, iN) ->
  iN < maxIterations m -> maxIterations m <= n < INT_MAX ->
  escape (set_maxIterations m n) (pixelPoint m x y) = Ok (z, iN) /\
  pixelColor (set_maxIterations m n) x y = pixelColor m x y.
Proof.
  intros He Hi Hn.
  assert (He' : escape (set_maxIterations m n) (pixelPoint m x y) = Ok (z, iN)).
  { destruct (escape_exit m (pixelPoint m x y)) as (k & Hlow & Hk & Hexit); [lia|].
    destruct (escape_exit (set_maxIterations m n) (pixelPoint m x y))
      as (k' & Hlow' & Hk' & Hexit'); [simpl; lia|].
    change (below (set_maxIterations m n)) with (below m) in *.
    simpl maxIterations in *.
    destruct Hexit as [[Hb Hk1]|(Hb & Hm & Hk1)];
      rewrite Hk1 in He; injection He as <- <-; [|lia].
    assert (Hle : (k' <= k)%nat).
    { destruct (Nat.le_gt_cases k' k) as [|Hlt]; [assumption|].
      rewrite (Hlow' k Hlt) in Hb. discriminate. }
    destruct Hexit' as [[Hb' Hk2]|(Hb' & Hm' & Hk2)]; [|lia].
    assert (k' = k) as ->.
    { destruct (Nat.eq_dec k' k) as [|Hne]; [assumption|].
      rewrite (Hlow k') in Hb' by lia. discriminate. }
    exact Hk2. }
  split; [exact He'|].
  unfold pixelColor.
  change (pixelPoint (set_maxIterations m n) x y) with (pixelPoint m x y).
  rewrite He', He. simpl.
  destruct (Z.leb_spec n iN), (Z.leb_spec (maxIterations m) iN); try lia.
  reflexivity.
Qed.

(** X12: with [maxIterations = INT_MAX] a pixel whose orbit never leaves
    the threshold makes the counter overflow: [iN++] is evaluated at
    [INT_MAX], which is undefined behaviour. *)
Theorem counter_overflow (m : Mandlebrot) (x y : Z) :
  maxIterations m = INT_MAX ->
  (forall k, below m (orbit (pixelPoint m x y) k) = true) ->
  computePixel m x y = Undefined.
Proof.
  intros Hmax Hin.
  assert (Hloop : forall fuel z iN,
            0 <= iN <= INT_MAX -> (Z.to_nat (INT_MAX - iN) < fuel)%nat ->
            (forall k, below m (steps (pixelPoint m x y) z k) = true) ->
            escapeLoop m fuel (pixelPoint m x y) z iN = Some Undefined).
  { induction fuel as [|fuel IH]; intros z iN HiN Hfuel Hz; [lia|].
    simpl. pose proof (Hz O) as H0. simpl in H0. unfold below in H0. rewrite H0.
    destruct (Z.eq_dec iN INT_MAX) as [->|Hne]; [reflexivity|].
    rewrite int_Ok by (unfold INT_MIN, INT_MAX in *; lia).
    rewrite Hmax. destruct (Z.ltb_spec iN INT_MAX); [|lia].
    apply IH; [lia|lia|]. intros k. apply (Hz (S k)). }
  unfold computePixel, escape.
  rewrite Hloop; [reflexivity|unfold INT_MAX; lia|unfold escapeFuel; lia|exact Hin].
Qed.

(** X13: the gradient needs two stops.  With fewer, as in an engine fresh
    from the constructor, the gradient branch reads [colorList] past its
    end, so that every pixel that leaves the threshold within the budget is
    undefined behaviour, whatever the C library computes. *)
Theorem short_gradient_undefined (m : Mandlebrot) (x y : Z) (z : complex) (iN : Z) :
  (length (colorList m) < 2)%nat ->
  escape m (pixelPoint m x y) = Ok (z, iN) -> iN < maxIterations m ->
  gradientColor m z iN = Undefined /\ computePixel m x y = Undefined.
Proof.
  intros Hlen He Hi.
  assert (Hg : gradientColor m z iN = Undefined).
  { unfold gradientColor.
    destruct (unsigned_of_double _) as [iC| |e] eqn:HiC; simpl; [|reflexivity|].
    - assert (HiC0 : 0 <= iC).
      { unfold unsigned_of_double, convert in HiC.
        destruct (truncZ _) as [t|]; [|discriminate].
        destruct (Z.leb_spec 0 t); simpl in HiC; [|discriminate].
        destruct (t <=? UINT_MAX); [|discriminate]. injection HiC as <-. assumption. }
      destruct (colorList m) as [|c1 [|c2 l]]; [| |simpl in Hlen; lia].
      { unfold at_. destruct (iC <? 0); [reflexivity|].
        destruct (Z.to_nat iC); reflexivity. }
      unfold at_. destruct (Z.ltb_spec iC 0); [lia|].
      destruct (Z.eq_dec iC 0) as [->|Hne]; [reflexivity|].
      destruct (Z.to_nat iC) as [|k] eqn:Hk; [lia|reflexivity].
    - exfalso. exact (convert_not_Raised _ _ _ _ HiC). }
  split; [exact Hg|].
  rewrite computePixel_pixelColor.
  unfold pixelColor. rewrite He. simpl.
  destruct (Z.leb_spec (maxIterations m) iN); [lia|]. rewrite Hg. reflexivity.
Qed.

End Budget.

Lemma no_iterations_all_bodyColor_witness :
  (forall x y,
     pixelColor (fun d => d) (fun d => d) (fun d => d)
       (set_maxIterations originEngine 0) x y
     = Ok (bodyColor (set_maxIterations originEngine 0))) /\
  exists m',
    computeSingleCore (fun d => d) (fun d => d) (fun d => d)
      (set_maxIterations originEngine 0) = Ok m' /\
    forall x y,
      0 <= x < width (image (set_maxIterations originEngine 0)) ->
      0 <= y < height (image (set_maxIterations originEngine 0)) ->
      data (image m') !! (y, x) = Some (bodyColor (set_maxIterations originEngine 0)).
Proof.
  apply (no_iterations_all_bodyColor (fun d => d) (fun d => d) (fun d => d)
           (set_maxIterations originEngine 0)).
  simpl. lia.
Defined.

Lemma more_iterations_keep_escaped_witness :
  escape (set_maxIterations farEngine 200) (pixelPoint farEngine 0 0)
  = Ok (mkComplex 25 0, 0) /\
  pixelColor (fun d => d) (fun d => d) (fun d => d) (set_maxIterations farEngine 200) 0 0
  = pixelColor (fun d => d) (fun d => d) (fun d => d) farEngine 0 0.
Proof.
  apply (more_iterations_keep_escaped (fun d => d) (fun d => d) (fun d => d)
           farEngine 200 0 0 (mkComplex 25 0) 0).
  - vm_compute. reflexivity.
  - simpl. lia.
  - simpl. unfold INT_MAX. lia.
Defined.

Lemma counter_overflow_witness :
  computePixel (fun d => d) (fun d => d) (fun d => d)
    (set_maxIterations originEngine INT_MAX) 0 0 = Undefined.
Proof.
  apply (counter_overflow (fun d => d) (fun d => d) (fun d => d)
           (set_maxIterations originEngine INT_MAX) 0 0).
  - reflexivity.
  - intros k.
    change (pixelPoint (set_maxIterations originEngine INT_MAX) 0 0) with (mkComplex 0 0).
    rewrite orbit_origin. reflexivity.
Defined.

Lemma short_gradient_undefined_witness :
  gradientColor (fun d => d) (fun d => d) (fun d => d) farEngine (mkComplex 25 0) 0
  = Undefined /\
  computePixel (fun d => d) (fun d => d) (fun d => d) farEngine 0 0 = Undefined.
Proof.
  apply (short_gradient_undefined (fun d => d) (fun d => d) (fun d => d)
           farEngine 0 0 (mkComplex 25 0) 0).
  - simpl. lia.
  - vm_compute. reflexivity.
  - simpl. lia.
Defined.

(** ** The blocks and the threads of [computeMultiCore] *)

(** X14: the blocks are adjacent and balanced.  For a raster of up to
    [MAX_BLOCK_WIDTH] columns block 0 starts at column 0, block 99 ends at
    the width, each block ends where the next one starts, and the widths of
    two blocks differ by one column at most. *)
Theorem blocks_adjacent_and_balanced (w : Z) :
  0 <= w <= MAX_BLOCK_WIDTH ->
  blockLeft w 0 = Ok 0 /\
  blockRight w 99 = Ok w /\
  (forall b, 0 <= b < 99 -> blockRight w b = blockLeft w (b + 1)) /\
  (forall b, 0 <= b < 100 ->
     exists l r, blockLeft w b = Ok l /\ blockRight w b = Ok r /\
       w / 100 <= r - l <= w / 100 + 1).
Proof.
  intros Hw. split; [|split; [|split]].
  - destruct (block_bounds_Ok w 0 Hw) as [Hl _]; [lia|]. exact Hl.
  - destruct (block_bounds_Ok w 99 Hw) as [_ Hr]; [lia|]. rewrite Hr. f_equal.
    change (99 + 1) with 100. rewrite Z.mul_comm. apply Z.div_mul. lia.
  - intros b Hb.
    destruct (block_bounds_Ok w b Hw) as [_ Hr]; [lia|].
    destruct (block_bounds_Ok w (b + 1) Hw) as [Hl _]; [lia|].
    rewrite Hr, Hl. reflexivity.
  - intros b Hb. destruct (block_bounds_Ok w b Hw Hb) as [Hl Hr].
    exists (b * w / 100), ((b + 1) * w / 100). split; [exact Hl|]. split; [exact Hr|].
    pose proof (Z.div_mod (b * w) 100 ltac:(lia)) as H1.
    pose proof (Z.mod_pos_bound (b * w) 100 ltac:(lia)) as H2.
    pose proof (Z.div_mod ((b + 1) * w) 100 ltac:(lia)) as H3.
    pose proof (Z.mod_pos_bound ((b + 1) * w) 100 ltac:(lia)) as H4.
    pose proof (Z.div_mod w 100 ltac:(lia)) as H5.
    pose proof (Z.mod_pos_bound w 100 ltac:(lia)) as H6.
    lia.
Qed.

Lemma blocks_adjacent_and_balanced_witness :
  blockLeft 2200 0 = Ok 0 /\
  blockRight 2200 99 = Ok 2200 /\
  (forall b, 0 <= b < 99 -> blockRight 2200 b = blockLeft 2200 (b + 1)) /\
  (forall b, 0 <= b < 100 ->
     exists l r, blockLeft 2200 b = Ok l /\ blockRight 2200 b = Ok r /\
       2200 / 100 <= r - l <= 2200 / 100 + 1).
Proof.
  apply (blocks_adjacent_and_balanced 2200).
  rewrite MAX_BLOCK_WIDTH_value. lia.
Defined.

Lemma sum_list_with_insert {A : Type} (f : A -> nat) (ws : list A) (i : nat) (w w' : A) :
  ws !! i = Some w ->
  (sum_list_with f (<[i := w']> ws) + f w = sum_list_with f ws + f w')%nat.
Proof.
  intros Hi.
  rewrite <- (take_drop_middle ws i w Hi) at 2.
  rewrite (insert_take_drop ws i w') by (eapply lookup_lt_Some; eauto).
  rewrite !sum_list_with_app. simpl. lia.
Qed.

Lemma sum_list_with_le_length {A : Type} (f : A -> nat) (ws : list A) :
  (forall w, f w <= 1)%nat -> (sum_list_with f ws <= length ws)%nat.
Proof.
  intros Hf. induction ws as [|w ws IH]; simpl; [lia|]. pose proof (Hf w). lia.
Qed.

Lemma joined_counts (p : pool) :
  joined p = true ->
  sum_list_with holdsBlock (workers p) = O /\
  sum_list_with hasLeft (workers p) = length (workers p).
Proof.
  unfold joined. induction (workers p) as [|w ws IH]; simpl; [auto|].
  intros H. apply andb_true_iff in H as [Hw Hws].
  destruct w; try discriminate. simpl. destruct (IH Hws) as [-> ->]. auto.
Qed.

Section Threads.

Variables log2 exp cos : float -> float.

#[local] Abbreviation workerStep := (workerStep log2 exp cos).
#[local] Abbreviation run := (run log2 exp cos).
#[local] Abbreviation computeMultiCore := (computeMultiCore log2 exp cos).

Lemma countersInv_spawn (nThreads : nat) (m : Mandlebrot) :
  countersInv (spawn nThreads m).
Proof.
  unfold countersInv. simpl.
  assert (H : sum_list_with holdsBlock (replicate nThreads Claiming) = O /\
              sum_list_with hasLeft (replicate nThreads Claiming) = O).
  { induction nThreads as [|n IH]; simpl; [auto|]. destruct IH as [-> ->]. auto. }
  destruct H as [-> ->]. lia.
Qed.

Lemma workerStep_counters (p p' : pool) (i : nat) :
  countersInv p -> workerStep p i = Ok p' -> countersInv p'.
Proof.
  destruct p as [eng next done ws tr]. unfold countersInv, workerStep. simpl.
  intros (Hdone & Hheld & Hleft).
  destruct (ws !! i) as [[|[|[x y] todo]|]|] eqn:Hi.
  - destruct (Z.ltb_spec next 100) as [Hlt|Hge].
    + intros H. apply bind_Ok in H as (l & _ & H). apply bind_Ok in H as (r & _ & H).
      injection H as <-. simpl.
      pose proof (sum_list_with_insert holdsBlock ws i _
                    (Computing (areaPixels l 0 r (height (image eng)))) Hi) as H1.
      pose proof (sum_list_with_insert hasLeft ws i _
                    (Computing (areaPixels l 0 r (height (image eng)))) Hi) as H2.
      simpl in H1, H2. lia.
    + intros [= <-]. simpl.
      pose proof (sum_list_with_insert holdsBlock ws i _ Finished Hi) as H1.
      pose proof (sum_list_with_insert hasLeft ws i _ Finished Hi) as H2.
      simpl in H1, H2. lia.
  - intros [= <-]. simpl.
    pose proof (sum_list_with_insert holdsBlock ws i _ Claiming Hi) as H1.
    pose proof (sum_list_with_insert hasLeft ws i _ Claiming Hi) as H2.
    simpl in H1, H2. lia.
  - intros H. apply bind_Ok in H as (e & _ & [= <-]). simpl.
    pose proof (sum_list_with_insert holdsBlock ws i _ (Computing todo) Hi) as H1.
    pose proof (sum_list_with_insert hasLeft ws i _ (Computing todo) Hi) as H2.
    simpl in H1, H2. lia.
  - intros [= <-]. simpl. auto.
  - intros [= <-]. simpl. auto.
Qed.

Lemma run_counters (sched : list nat) :
  forall p p', countersInv p -> run sched p = Ok p' -> countersInv p'.
Proof.
  induction sched as [|i sched IH]; intros p p' Hp Hrun.
  - injection Hrun as <-. exact Hp.
  - rewrite (run_cons log2 exp cos) in Hrun.
    apply bind_Ok in Hrun as (p1 & Hstep & Hrun).
    eapply IH; [|exact Hrun]. eapply workerStep_counters; eauto.
Qed.

(** X15: the two counters of [computeMultiCore].  At every point of a run
    the progress that is printed, [doneBlock], is between 0 and 100 and not
    ahead of [nextBlock], which never exceeds [100 + nThreads]; once the
    threads are joined, the last progress printed was 100 and every thread
    has taken exactly one block number that does not exist. *)
Theorem progress_counters (m : Mandlebrot) (nThreads : nat) (sched : list nat) (p : pool) :
  run sched (spawn nThreads m) = Ok p ->
  0 <= doneBlock p <= 100 /\
  doneBlock p <= nextBlock p <= 100 + Z.of_nat nThreads /\
  (joined p = true -> (1 <= nThreads)%nat ->
   doneBlock p = 100 /\ nextBlock p = 100 + Z.of_nat nThreads).
Proof.
  intros Hrun.
  pose proof (run_counters _ _ _ (countersInv_spawn nThreads m) Hrun)
    as (Hdone & Hheld & Hleft).
  assert (Hlen : length (workers p) = nThreads).
  { rewrite (run_length log2 exp cos _ _ _ Hrun). simpl. apply length_replicate. }
  pose proof (sum_list_with_le_length hasLeft (workers p)) as Hle.
  assert (Hle' : (sum_list_with hasLeft (workers p) <= length (workers p))%nat).
  { apply Hle. intros [| |]; simpl; lia. }
  split; [lia|]. split; [lia|].
  intros Hj Hn. destruct (joined_counts p Hj) as [H0 H1]. lia.
Qed.

(** X16: without threads nothing is rendered.  When
    [std::thread::hardware_concurrency ()] returns 0, which it may,
    [computeMultiCore] returns at once and leaves the engine, raster
    included, as it was. *)
Theorem no_thread_no_render (m : Mandlebrot) (sched : list nat) :
  computeMultiCore 0 sched m = Some (Ok m).
Proof.
  unfold computeMultiCore.
  assert (Hrun : run sched (spawn 0 m) = Ok (spawn 0 m)).
  { induction sched as [|i sched IH]; [reflexivity|].
    rewrite (run_cons log2 exp cos). exact IH. }
  rewrite Hrun. reflexivity.
Qed.

End Threads.

Lemma progress_counters_witness :
  0 <= 100 <= 100 /\
  100 <= 101 <= 100 + Z.of_nat 1 /\
  (joined (mkPool (store originEngine 0 0 (mkColor 0 0 0)) 101 100 [Finished] [(0, 0)])
   = true ->
   (1 <= 1)%nat ->
   100 = 100 /\ 101 = 100 + Z.of_nat 1).
Proof.
  apply (progress_counters (fun d => d) (fun d => d) (fun d => d)
           originEngine 1 (replicate 202 O)
           (mkPool (store originEngine 0 0 (mkColor 0 0 0)) 101 100 [Finished] [(0, 0)])).
  vm_compute. reflexivity.
Defined.

(** ** No pixel is computed twice *)

Lemma NoDup_areaPixels (l t r b : Z) : NoDup (areaPixels l t r b).
Proof.
  unfold areaPixels. apply NoDup_bind; [| |apply NoDup_seqZ].
  - intros y1 y2 [x y] _ _ H1 H2.
    apply list_elem_of_bind in H1 as (x1 & H1 & _), H2 as (x2 & H2 & _).
    apply list_elem_of_singleton in H1, H2. congruence.
  - intros y _. apply NoDup_bind; [| |apply NoDup_seqZ].
    + intros x1 x2 xy _ _ H1 H2.
      apply list_elem_of_singleton in H1, H2. congruence.
    + intros x _. apply NoDup_singleton.
Qed.

Lemma length_areaPixels (l t r b : Z) :
  length (areaPixels l t r b) = (Z.to_nat (b - t) * Z.to_nat (r - l))%nat.
Proof.
  unfold areaPixels. rewrite <- (length_seqZ t (b - t)), <- (length_seqZ l (r - l)).
  generalize (seqZ t (b - t)) (seqZ l (r - l)). intros ys xs.
  induction ys as [|y ys IH]; [reflexivity|].
  rewrite bind_cons, length_app, IH. simpl. f_equal.
  clear. induction xs as [|x xs IH]; [reflexivity|].
  rewrite bind_cons. simpl. f_equal. exact IH.
Qed.

Lemma NoDup_claimedPixels (m0 : Mandlebrot) (n : Z) :
  0 <= width (image m0) -> NoDup (claimedPixels m0 n).
Proof.
  intros Hw. unfold claimedPixels. apply NoDup_bind; [| |apply NoDup_seqZ].
  - intros b1 b2 [x y] Hb1 Hb2 H1 H2.
    apply elem_of_seqZ in Hb1, Hb2.
    apply elem_of_areaPixels in H1 as [H1 _], H2 as [H2 _].
    apply (block_unique (width (image m0)) b1 b2 x); try lia.
  - intros b _. apply NoDup_areaPixels.
Qed.

Section Races.

Variables log2 exp cos : float -> float.

#[local] Abbreviation run := (run log2 exp cos).

(** X17: the threads never meet.  At every point of a run on a raster of up
    to [MAX_BLOCK_WIDTH] columns, the pixels computed so far and the pixels
    of the blocks that the threads hold are pixels of the raster and are all
    different: no pixel is computed twice, and no two threads are ever to
    write the same pixel.  Once the threads are joined, the calls of
    [computePixel] made are the ones of [computeSingleCore] in another
    order, [width * height] of them. *)
Theorem no_pixel_computed_twice (m : Mandlebrot) (nThreads : nat) (sched : list nat)
    (p : pool) :
  0 <= width (image m) <= MAX_BLOCK_WIDTH ->
  run sched (spawn nThreads m) = Ok p ->
  NoDup (trace p ++ pending (workers p)) /\
  (forall x y, (x, y) ∈ trace p ++ pending (workers p) -> inRaster m x y) /\
  (joined p = true -> (1 <= nThreads)%nat ->
   trace p ≡ₚ rasterPixels m /\
   length (trace p) = Z.to_nat (width (image m) * height (image m))).
Proof.
  intros Hw Hrun.
  pose proof (run_inv log2 exp cos m Hw _ _ _ (poolInv_spawn log2 exp cos m Hw nThreads) Hrun)
    as [_ _ _ Hpix _].
  split; [|split].
  - rewrite Hpix. apply NoDup_claimedPixels. lia.
  - intros x y Hin. rewrite Hpix in Hin. eapply elem_of_claimedPixels; eassumption.
  - intros Hj Hn.
    destruct (multiCore_render log2 exp cos m Hw nThreads sched p Hn Hrun Hj) as [Htr _].
    assert (Hperm : trace p ≡ₚ rasterPixels m).
    { rewrite Htr. apply NoDup_Permutation.
      - apply NoDup_claimedPixels. lia.
      - apply NoDup_areaPixels.
      - intros [x y]. rewrite elem_of_rasterPixels. split.
        + apply elem_of_claimedPixels. exact Hw.
        + apply claimedPixels_all. lia. }
    split; [exact Hperm|].
    rewrite Hperm. unfold rasterPixels. rewrite length_areaPixels, !Z.sub_0_r.
    destruct (Z_lt_le_dec (height (image m)) 0) as [Hh|Hh].
    + assert (width (image m) * height (image m) <= 0) by nia. lia.
    + rewrite Z2Nat.inj_mul by lia. lia.
Qed.

End Races.

Lemma no_pixel_computed_twice_witness :
  NoDup ([(0, 0)] ++ pending [Finished]) /\
  (forall x y, (x, y) ∈ [(0, 0)] ++ pending [Finished] -> inRaster originEngine x y) /\
  (joined (mkPool (store originEngine 0 0 (mkColor 0 0 0)) 101 100 [Finished] [(0, 0)])
   = true ->
   (1 <= 1)%nat ->
   [(0, 0)] ≡ₚ rasterPixels originEngine /\
   length [(0, 0)]
   = Z.to_nat (width (image originEngine) * height (image originEngine))).
Proof.
  apply (no_pixel_computed_twice (fun d => d) (fun d => d) (fun d => d)
           originEngine 1 (replicate 202 O)
           (mkPool (store originEngine 0 0 (mkColor 0 0 0)) 101 100 [Finished] [(0, 0)])).
  - rewrite MAX_BLOCK_WIDTH_value. simpl. lia.
  - vm_compute. reflexivity.
Defined.

(** ** Rasters wider than [MAX_BLOCK_WIDTH] *)

Section WideRaster.

Variables log2 exp cos : float -> float.

#[local] Abbreviation workerStep := (workerStep log2 exp cos).
#[local] Abbreviation run := (run log2 exp cos).
#[local] Abbreviation computeMultiCore := (computeMultiCore log2 exp cos).

Lemma insert_not_Finished (ws : list worker) (i : nat) (w : worker) :
  (forall k, ws !! k <> Some Finished) -> w <> Finished ->
  forall k, <[i := w]> ws !! k <> Some Finished.
Proof.
  intros Hws Hw k Hk. destruct (decide (i = k)) as [->|Hne].
  - destruct (decide (k < length ws)%nat) as [Hlt|Hge].
    + rewrite list_lookup_insert_eq in Hk by assumption. congruence.
    + rewrite list_insert_ge in Hk by lia. exact (Hws k Hk).
  - rewrite list_lookup_insert_ne in Hk by assumption. exact (Hws k Hk).
Qed.

(** While no step is undefined, block 99 has not been taken and no thread
    has left its loop. *)
Lemma workerStep_wide (p p' : pool) (i : nat) :
  MAX_BLOCK_WIDTH < width (image (engine p)) ->
  nextBlock p <= 99 -> (forall k, workers p !! k <> Some Finished) ->
  workerStep p i = Ok p' ->
  width (image (engine p')) = width (image (engine p)) /\
  nextBlock p' <= 99 /\ (forall k, workers p' !! k <> Some Finished).
Proof.
  destruct p as [eng next done ws tr]. unfold workerStep. simpl.
  rewrite MAX_BLOCK_WIDTH_value. intros Hw Hnext Hws.
  destruct (ws !! i) as [[|[|[x y] todo]|]|] eqn:Hi.
  - destruct (Z.ltb_spec next 100) as [Hlt|Hge]; [|lia].
    intros H. apply bind_Ok in H as (l & _ & H). apply bind_Ok in H as (r & Hr & H).
    injection H as <-. simpl. split; [reflexivity|].
    split; [|apply insert_not_Finished; [exact Hws|discriminate]].
    unfold blockRight in Hr. apply bind_Ok in Hr as (b & Hb & Hr).
    apply bind_Ok in Hr as (n & Hn & _).
    apply int_inv in Hb as [-> _]. apply int_inv in Hn as [_ Hn].
    unfold INT_MAX in Hn. nia.
  - intros [= <-]. simpl. split; [reflexivity|].
    split; [exact Hnext|apply insert_not_Finished; [exact Hws|discriminate]].
  - intros H. apply bind_Ok in H as (e & He & [= <-]). simpl.
    apply computePixel_Ok in He as (_ & c & _ & ->).
    split; [reflexivity|].
    split; [exact Hnext|apply insert_not_Finished; [exact Hws|discriminate]].
  - exfalso. exact (Hws i Hi).
  - intros [= <-]. simpl. auto.
Qed.

Lemma run_wide (sched : list nat) :
  forall p p',
    MAX_BLOCK_WIDTH < width (image (engine p)) ->
    nextBlock p <= 99 -> (forall k, workers p !! k <> Some Finished) ->
    run sched p = Ok p' ->
    forall k, workers p' !! k <> Some Finished.
Proof.
  induction sched as [|i sched IH]; intros p p' Hw Hnext Hws Hrun.
  - injection Hrun as <-. exact Hws.
  - rewrite (run_cons log2 exp cos) in Hrun.
    apply bind_Ok in Hrun as (p1 & Hstep & Hrun).
    destruct (workerStep_wide p p1 i Hw Hnext Hws Hstep) as (Hw1 & Hnext1 & Hws1).
    apply (IH p1 p'); [rewrite Hw1; exact Hw|exact Hnext1|exact Hws1|exact Hrun].
Qed.

(** X18: on a raster wider than [MAX_BLOCK_WIDTH] the multi-core render
    never completes.  With at least one thread, a run is either not over or
    has met the overflow of [(currentBlock+1) * image.width]: no schedule
    returns a rendered engine. *)
Theorem wide_raster_never_completes (m : Mandlebrot) (nThreads : nat) (sched : list nat) :
  MAX_BLOCK_WIDTH < width (image m) -> (1 <= nThreads)%nat ->
  computeMultiCore nThreads sched m = None \/
  computeMultiCore nThreads sched m = Some Undefined.
Proof.
  intros Hw Hn. unfold computeMultiCore.
  destruct (run sched (spawn nThreads m)) as [p| |e] eqn:Hrun.
  - left. destruct (joined p) eqn:Hj; [exfalso|reflexivity].
    assert (Hlen : length (workers p) = nThreads).
    { rewrite (run_length log2 exp cos _ _ _ Hrun). simpl. apply length_replicate. }
    destruct (lookup_lt_is_Some_2 (workers p) 0) as [w Hw0]; [lia|].
    apply (run_wide sched (spawn nThreads m) p Hw) with (k := O); [simpl; lia| |exact Hrun|].
    + intros k Hk. apply lookup_replicate in Hk as [[=] _].
    + rewrite Hw0. f_equal. eapply joined_Finished; eauto.
  - right. reflexivity.
  - exfalso. exact (run_not_Raised log2 exp cos sched e _ Hrun).
Qed.

End WideRaster.

Lemma wide_raster_never_completes_witness :
  computeMultiCore (fun d => d) (fun d => d) (fun d => d) 1 (replicate 199 O) wideEngine
  = None \/
  computeMultiCore (fun d => d) (fun d => d) (fun d => d) 1 (replicate 199 O) wideEngine
  = Some Undefined.
Proof.
  apply (wide_raster_never_completes (fun d => d) (fun d => d) (fun d => d)
           wideEngine 1 (replicate 199 O)).
  - rewrite MAX_BLOCK_WIDTH_value. simpl. lia.
  - lia.
Defined.

(** ** Multi-core against single-core *)

Section MultiCoreAgainstSingleCore.

Variables log2 exp cos : float -> float.

#[local] Abbreviation run := (run log2 exp cos).
#[local] Abbreviation computeSingleCore := (computeSingleCore log2 exp cos).
#[local] Abbreviation computeMultiCore := (computeMultiCore log2 exp cos).

(** C1 fails on the code.  With at least one thread and a raster of up to
    [MAX_BLOCK_WIDTH] = 21474836 columns the two renders agree: whenever the
    threads are all joined the engine is the one of [computeSingleCore],
    hence the same colour in every pixel, and when [computeSingleCore]
    succeeds every schedule of the threads runs without undefined behaviour
    and can be continued until all threads are joined.  On a wider raster,
    which [computeSingleCore] renders like any other, the product
    [(currentBlock+1) * image.width] of block 99 overflows [int], and no
    schedule of the threads returns an engine.  On [wideEngine], of 21474837
    columns, [computeSingleCore] returns and a thread of [computeMultiCore]
    runs into the overflow once it has taken the first 99 blocks. *)
Theorem multiCore_equals_singleCore_until_overflow :
  (forall m nThreads,
     (1 <= nThreads)%nat -> 0 <= width (image m) <= MAX_BLOCK_WIDTH ->
     (forall sched m',
        computeMultiCore nThreads sched m = Some (Ok m') ->
        computeSingleCore m = Ok m') /\
     (forall m',
        computeSingleCore m = Ok m' ->
        forall sched,
          (computeMultiCore nThreads sched m = None \/
           computeMultiCore nThreads sched m = Some (Ok m')) /\
          exists sched', computeMultiCore nThreads (sched ++ sched') m = Some (Ok m'))) /\
  (forall m nThreads sched,
     (1 <= nThreads)%nat -> MAX_BLOCK_WIDTH < width (image m) ->
     computeMultiCore nThreads sched m = None \/
     computeMultiCore nThreads sched m = Some Undefined) /\
  (MAX_BLOCK_WIDTH < width (image wideEngine) <= INT_MAX /\
   computeSingleCore wideEngine = Ok wideEngine /\
   computeMultiCore 1 (replicate 199 O) wideEngine = Some Undefined).
Proof.
  split; [|split].
  - intros m nThreads Hn Hw.
    destruct (multiCore_equals_singleCore log2 exp cos m nThreads Hn Hw)
      as (Hsound & Hcomplete & _).
    split; assumption.
  - intros m nThreads sched Hn Hw. unfold computeMultiCore.
    destruct (run sched (spawn nThreads m)) as [p| |e] eqn:Hrun.
    + left. destruct (joined p) eqn:Hj; [exfalso|reflexivity].
      assert (Hlen : length (workers p) = nThreads).
      { rewrite (run_length log2 exp cos _ _ _ Hrun). simpl. apply length_replicate. }
      destruct (lookup_lt_is_Some_2 (workers p) 0) as [w Hw0]; [lia|].
      apply (run_wide log2 exp cos sched (spawn nThreads m) p Hw) with (k := O);
        [simpl; lia| |exact Hrun|].
      * intros k Hk. apply lookup_replicate in Hk as [[=] _].
      * rewrite Hw0. f_equal. eapply joined_Finished; eauto.
    + right. reflexivity.
    + exfalso. exact (run_not_Raised log2 exp cos sched e _ Hrun).
  - split; [rewrite MAX_BLOCK_WIDTH_value; unfold INT_MAX; simpl; lia|].
    split; vm_compute; reflexivity.
Qed.

End MultiCoreAgainstSingleCore.

(** ** The outcomes of the constructor *)

Section Constructor.

Variable log2 : float -> float.

(** X19: what the constructor does with the two dimensions it converts.
    A negative height, as when [top] and [bottom] are swapped, and a
    negative width with a positive height raise
    [std::bad_array_new_length]; a positive height with a width whose triple
    is not an [int] is undefined behaviour; and a positive height with a
    width of up to 715827882 gives an engine with an empty raster of these
    dimensions. *)
Theorem constructor_outcomes (resolution l t r b : float) (w h : Z) :
  int_of_double (resolution * (r - l)) = Ok w ->
  int_of_double (resolution * (t - b)) = Ok h ->
  (h < 0 -> Mandlebrot_new log2 resolution l t r b = Raised bad_array_new_length) /\
  (0 < h -> - 715827882 <= w < 0 ->
   Mandlebrot_new log2 resolution l t r b = Raised bad_array_new_length) /\
  (0 < h -> w < - 715827882 \/ 715827882 < w ->
   Mandlebrot_new log2 resolution l t r b = Undefined) /\
  (0 < h -> 0 <= w <= 715827882 ->
   exists m, Mandlebrot_new log2 resolution l t r b = Ok m /\
             image m = mkImage ∅ w h /\ colorList m = []).
Proof.
  intros Hw Hh. unfold Mandlebrot_new. rewrite Hw, Hh. simpl.
  unfold Image_new, int, in_int, INT_MIN, INT_MAX.
  split; [|split; [|split]].
  - intros Hneg. destruct (Z.ltb_spec h 0); [reflexivity|lia].
  - intros Hpos Hneg. destruct (Z.ltb_spec h 0); [lia|].
    destruct (Z.eqb_spec h 0); [lia|].
    destruct (Z.leb_spec (- 2 ^ 31) (w * 3)); [|lia].
    destruct (Z.leb_spec (w * 3) (2 ^ 31 - 1)); [|lia]. simpl.
    destruct (Z.ltb_spec (w * 3) 0); [reflexivity|lia].
  - intros Hpos Hout. destruct (Z.ltb_spec h 0); [lia|].
    destruct (Z.eqb_spec h 0); [lia|].
    destruct (Z.leb_spec (- 2 ^ 31) (w * 3)), (Z.leb_spec (w * 3) (2 ^ 31 - 1));
      simpl; try reflexivity; lia.
  - intros Hpos Hin. destruct (Z.ltb_spec h 0); [lia|].
    destruct (Z.eqb_spec h 0); [lia|].
    destruct (Z.leb_spec (- 2 ^ 31) (w * 3)); [|lia].
    destruct (Z.leb_spec (w * 3) (2 ^ 31 - 1)); [|lia]. simpl.
    destruct (Z.ltb_spec (w * 3) 0); [lia|]. simpl.
    eexists. split; [reflexivity|]. split; reflexivity.
Qed.

End Constructor.

Lemma constructor_outcomes_witness :
  (-1 < 0 -> Mandlebrot_new (fun d => d) 1 0 0 1 1 = Raised bad_array_new_length) /\
  (0 < -1 -> - 715827882 <= 1 < 0 ->
   Mandlebrot_new (fun d => d) 1 0 0 1 1 = Raised bad_array_new_length) /\
  (0 < -1 -> 1 < - 715827882 \/ 715827882 < 1 ->
   Mandlebrot_new (fun d => d) 1 0 0 1 1 = Undefined) /\
  (0 < -1 -> 0 <= 1 <= 715827882 ->
   exists m, Mandlebrot_new (fun d => d) 1 0 0 1 1 = Ok m /\
             image m = mkImage ∅ 1 (-1) /\ colorList m = []).
Proof.
  apply (constructor_outcomes (fun d => d) 1 0 0 1 1 1 (-1)); vm_compute; reflexivity.
Defined.

(** ** A pixel on a stop of the gradient *)

Section OnAStop.

Variables log2 exp cos : float -> float.

#[local] Abbreviation gradientColor := (gradientColor log2 exp cos).

Lemma blendColor_first (c1 c2 : Color) :
  isByteColor c1 -> isByteColor c2 -> blendColor c1 c2 1 = Ok c1.
Proof.
  intros (Hr1 & Hg1 & Hb1) (Hr2 & Hg2 & Hb2). unfold blendColor.
  rewrite (proj1 (blend_at_the_stops _ _ Hr1 Hr2)). simpl.
  rewrite (proj1 (blend_at_the_stops _ _ Hg1 Hg2)). simpl.
  rewrite (proj1 (blend_at_the_stops _ _ Hb1 Hb2)). simpl.
  destruct c1. reflexivity.
Qed.

(** X20: the gradient passes through its stops.  When the position [nC] in
    the gradient is a whole number, so that the fraction [fC] is 0, and the
    C library has [cos (0) = 1], the pixel gets the colour of the stop
    [colorList[iC]] itself, with nothing of the next stop blended in. *)
Theorem gradient_at_a_stop (m : Mandlebrot) (z : complex) (iN iC : Z) (c1 c2 : Color) :
  cos 0%float = 1%float ->
  unsigned_of_double (gradientPosition exp m (smoothed log2 m z iN)) = Ok iC ->
  (gradientPosition exp m (smoothed log2 m z iN) - double_of_Z iC)%float = 0%float ->
  at_ (colorList m) iC = Ok c1 ->
  at_ (colorList m) (unsigned (iC + 1)) = Ok c2 ->
  isByteColor c1 -> isByteColor c2 ->
  gradientColor m z iN = Ok c1.
Proof.
  intros Hcos HiC HfC H1 H2 Hb1 Hb2. unfold gradientColor.
  rewrite HiC. simpl. rewrite H1. simpl. rewrite H2. simpl. rewrite HfC.
  assert (Hmix : mixOf cos 0 = 1%float).
  { unfold mixOf. change (M_PI * 0)%float with 0%float. rewrite Hcos. reflexivity. }
  rewrite Hmix. apply blendColor_first; assumption.
Qed.

End OnAStop.

Lemma gradient_at_a_stop_witness :
  gradientColor (fun d => d) (fun _ => 1%float) (fun _ => 1%float)
    lateEngine (mkComplex 30 0) 0
  = Ok (mkColor 0 0 40).
Proof.
  apply (gradient_at_a_stop (fun d => d) (fun _ => 1%float) (fun _ => 1%float)
           lateEngine (mkComplex 30 0) 0 0 (mkColor 0 0 40) (mkColor 0 50 100));
    try (vm_compute; reflexivity).
  - unfold isByteColor, UCHAR_MAX. simpl. lia.
  - unfold isByteColor, UCHAR_MAX. simpl. lia.
Defined.

(** ** The blend on the two sides of a stop *)



Section AcrossAStop.

Variables log2 exp cos : float -> float.

#[local] Abbreviation gradientColor := (gradientColor log2 exp cos).


End AcrossAStop.


(** ** From the render to the PNG rows *)

Lemma colorBytes_lookup (cs : list Color) :
  forall (i : nat) (c : Color),
    cs !! i = Some c ->
    (cs ≫= colorBytes) !! (3 * i)%nat = Some (red c) /\
    (cs ≫= colorBytes) !! (3 * i + 1)%nat = Some (green c) /\
    (cs ≫= colorBytes) !! (3 * i + 2)%nat = Some (blue c).
Proof.
  induction cs as [|c0 cs IH]; intros i c Hi; [discriminate|].
  rewrite bind_cons. destruct i as [|i].
  - injection Hi as ->. auto.
  - replace (3 * S i)%nat with (S (S (S (3 * i)))) by lia.
    apply (IH i c Hi).
Qed.

Lemma colorBytes_length (cs : list Color) :
  length (cs ≫= colorBytes) = (3 * length cs)%nat.
Proof.
  induction cs as [|c cs IH]; [reflexivity|].
  rewrite bind_cons, length_app, IH. simpl. lia.
Qed.

Section WriteAfterRender.

Variables log2 exp cos : float -> float.

#[local] Abbreviation pixelColor := (pixelColor log2 exp cos).
#[local] Abbreviation computeSingleCore := (computeSingleCore log2 exp cos).

(** X21: after a render that succeeded, [Image::write] passes initialised
    memory to libpng: [height] rows of [3 * width] bytes, where the bytes
    [3 * x], [3 * x + 1] and [3 * x + 2] of row [y] are the red, green and
    blue channel of the colour computed for pixel [(x, y)]. *)
Theorem rendered_rows_are_the_colours (m m' : Mandlebrot) :
  computeSingleCore m = Ok m' ->
  exists rows,
    Image_write_rows (image m') = Some rows /\
    length rows = Z.to_nat (height (image m)) /\
    forall x y, 0 <= x < width (image m) -> 0 <= y < height (image m) ->
      exists row c,
        rows !! Z.to_nat y = Some row /\
        length row = (3 * Z.to_nat (width (image m)))%nat /\
        pixelColor m x y = Ok c /\
        row !! (3 * Z.to_nat x)%nat = Some (red c) /\
        row !! (3 * Z.to_nat x + 1)%nat = Some (green c) /\
        row !! (3 * Z.to_nat x + 2)%nat = Some (blue c).
Proof.
  intros Hrun.
  destruct (singleCore_render log2 exp cos m (singleCore_colours log2 exp cos m m' Hrun))
    as (d & Hd & Hren).
  rewrite Hrun in Hd. injection Hd as ->.
  unfold Image_write_rows. simpl.
  set (img := mkImage d (width (image m)) (height (image m))).
  assert (Hlook : forall x y, 0 <= x < width (image m) -> 0 <= y < height (image m) ->
            exists c, pixelColor m x y = Ok c /\ d !! (y, x) = Some c).
  { intros x y Hx Hy. apply (proj1 (Hren x y)).
    apply elem_of_rasterPixels. split; assumption. }
  assert (Hrows : is_Some (mapM (rowBytes img) (seqZ 0 (height (image m))))).
  { apply mapM_is_Some_2, Forall_forall. intros y Hy. apply elem_of_seqZ in Hy.
    unfold rowBytes, compose. simpl.
    assert (Hcs : is_Some (mapM (fun x => d !! (y, x)) (seqZ 0 (width (image m))))).
    { apply mapM_is_Some_2, Forall_forall. intros x Hx. apply elem_of_seqZ in Hx.
      destruct (Hlook x y) as (c & _ & Hc); [lia|lia|]. unfold compose. rewrite Hc. eauto. }
    destruct Hcs as [cs Hcs]. rewrite Hcs. simpl. eauto. }
  destruct Hrows as [rows Hrows]. exists rows. split; [exact Hrows|].
  split; [rewrite <- (length_mapM _ _ _ Hrows); apply length_seqZ|].
  intros x y Hx Hy.
  apply mapM_Some_1 in Hrows.
  destruct (Forall2_lookup_l _ _ _ (Z.to_nat y) y Hrows) as (row & Hrow & Hbytes).
  { rewrite lookup_seqZ_lt by lia. f_equal. lia. }
  unfold rowBytes in Hbytes. simpl in Hbytes.
  destruct (mapM (fun x => d !! (y, x)) (seqZ 0 (width (image m)))) as [cs|] eqn:Hcs;
    [|discriminate].
  simpl in Hbytes. injection Hbytes as <-.
  pose proof (length_mapM _ _ _ Hcs) as Hlen. rewrite length_seqZ in Hlen.
  apply mapM_Some_1 in Hcs.
  destruct (Forall2_lookup_l _ _ _ (Z.to_nat x) x Hcs) as (c & Hc & Hdc).
  { rewrite lookup_seqZ_lt by lia. f_equal. lia. }
  destruct (Hlook x y Hx Hy) as (c' & Hcol & Hdc').
  rewrite Hdc in Hdc'. injection Hdc' as <-.
  exists (cs ≫= colorBytes), c. split; [exact Hrow|].
  split; [rewrite colorBytes_length; lia|]. split; [exact Hcol|].
  apply colorBytes_lookup. exact Hc.
Qed.

End WriteAfterRender.

(** X22: an image that was not rendered has nothing to write.  Straight
    from [Image::Image] with a positive width and height, the rows that
    [Image::write] would pass to libpng are indeterminate; without pixels,
    there are [height] empty rows. *)
Theorem fresh_image_rows (w h : Z) (img : Image) :
  Image_new w h = Ok img ->
  (0 < w -> 0 < h -> Image_write_rows img = None) /\
  (w <= 0 -> Image_write_rows img = Some (replicate (Z.to_nat h) [])).
Proof.
  intros Hnew. apply Image_new_Ok in Hnew as [-> Hh]. unfold Image_write_rows. simpl.
  split.
  - intros Hw Hh0. apply mapM_None_2. rewrite (seqZ_cons 0 h) by lia.
    apply Exists_cons_hd. unfold rowBytes. simpl.
    assert (Hcs : mapM (fun x : Z => (∅ : gmap (Z * Z) Color) !! (0, x)) (seqZ 0 w) = None).
    { apply mapM_None_2. rewrite (seqZ_cons 0 w) by lia.
      apply Exists_cons_hd. apply lookup_empty. }
    rewrite Hcs. reflexivity.
  - intros Hw. apply mapM_Some_2.
    assert (Hrow : forall y, rowBytes (mkImage ∅ w h) y = Some []).
    { intros y. unfold rowBytes. simpl. rewrite seqZ_nil by lia. reflexivity. }
    rewrite <- (length_seqZ 0 h).
    induction (seqZ 0 h) as [|y ys IH]; simpl; constructor; auto.
Qed.

Lemma rendered_rows_are_the_colours_witness :
  exists rows,
    Image_write_rows (image (store originEngine 0 0 (mkColor 0 0 0))) = Some rows /\
    length rows = Z.to_nat (height (image originEngine)) /\
    forall x y,
      0 <= x < width (image originEngine) -> 0 <= y < height (image originEngine) ->
      exists row c,
        rows !! Z.to_nat y = Some row /\
        length row = (3 * Z.to_nat (width (image originEngine)))%nat /\
        pixelColor (fun d => d) (fun d => d) (fun d => d) originEngine x y = Ok c /\
        row !! (3 * Z.to_nat x)%nat = Some (red c) /\
        row !! (3 * Z.to_nat x + 1)%nat = Some (green c) /\
        row !! (3 * Z.to_nat x + 2)%nat = Some (blue c).
Proof.
  apply (rendered_rows_are_the_colours (fun d => d) (fun d => d) (fun d => d)
           originEngine).
  vm_compute. reflexivity.
Defined.

Lemma fresh_image_rows_witness :
  (0 < 2 -> 0 < 1 -> Image_write_rows (mkImage ∅ 2 1) = None) /\
  (2 <= 0 -> Image_write_rows (mkImage ∅ 2 1) = Some (replicate (Z.to_nat 1) [])).
Proof.
  apply (fresh_image_rows 2 1 (mkImage ∅ 2 1)). vm_compute. reflexivity.
Defined.
